(** * config: a JSON-backed configuration container (Go package [config])

    Shallow embedding of [src/config/config.go].

    A Go [map] is a reference to a mutable hash table, and [GetSubConfig]
    hands out the very table stored inside the parent, so the embedding keeps
    an explicit heap of tables: a [Config] is either the nil map or a
    reference into that heap.  Every method is a computation over the
    [world] (heap and diagnostic sink) that ends in a normal return, a
    run-time panic or a process exit. *)

From Stdlib Require Import ZArith String List Bool Lia.
From Stdlib Require Import Init.Byte Strings.Byte.
From Stdlib Require Import Floats.SpecFloat.
Set Warnings "-register-all".
From stdpp Require Import base option list sorting gmap strings.

Local Open Scope string_scope.
Local Open Scope list_scope.
Local Open Scope Z_scope.

(** ** Dynamically typed values *)

Module Go.

(** Addresses of hash tables. *)
Definition loc := positive.

(** [map[string]interface{}] and [Config] share one representation: nil,
    or a pointer to a table. *)
Inductive mapref :=
| NilMap
| MapRef (l : loc).
Arguments MapRef l%_positive.

(** [type Value interface{}]: a value together with its dynamic type.
    [VOther] stands for a value of any dynamic type the package never
    asserts on ([int], [float32], a struct, ...). *)
Inductive Value :=
| VNil
| VBool (b : bool)
| VFloat64 (f : spec_float)
| VInt64 (n : Z)
| VUint64 (n : Z)
| VString (s : string)
| VSlice (es : list Value)
| VMap (r : mapref)
| VOther (ty : string).

Inductive dyntype :=
| TNil | TBool | TFloat64 | TInt64 | TUint64 | TString | TSlice | TMap
| TOther (ty : string).

Definition type_of (v : Value) : dyntype :=
  match v with
  | VNil => TNil
  | VBool _ => TBool
  | VFloat64 _ => TFloat64
  | VInt64 _ => TInt64
  | VUint64 _ => TUint64
  | VString _ => TString
  | VSlice _ => TSlice
  | VMap _ => TMap
  | VOther ty => TOther ty
  end.

(** [type Config map[string]Value] *)
Definition Config := mapref.

Inductive error :=
| ErrNoSuchKey
| SyntaxError
| UnmarshalTypeError (value : string)
| UnsupportedValueError (what : string).

(** Run-time panics the package can raise. *)
Inductive panic :=
| TypeAssertionError (have want : dyntype)
| NilMapAssignment
| PhasePanic.

(** How a call ends. *)
Inductive outcome (A : Type) :=
| Ret (a : A)
| Panic (p : panic)
| Exit (code : Z).
Arguments Ret {A} a.
Arguments Panic {A} p.
Arguments Exit {A} code.

Inductive level := LDebug | LError.

(** One call of the logging package: level, format string, arguments. *)
Record log_entry := LogEntry {
  log_level : level;
  log_format : string;
  log_args : list Value
}.

Record world := World {
  heap : gmap loc (gmap string Value);
  sink : list log_entry
}.

Definition M (A : Type) : Type := world → outcome A * world.

Definition ret {A} (a : A) : M A := λ w, (Ret a, w).

Definition bind {A B} (m : M A) (k : A → M B) : M B :=
  λ w, match m w with
       | (Ret a, w') => k a w'
       | (Panic p, w') => (Panic p, w')
       | (Exit n, w') => (Exit n, w')
       end.

#[global] Instance M_ret : MRet M := @ret.
#[global] Instance M_bind : MBind M := λ A B k m, bind m k.

(** [panic(p)] *)
Definition throw {A} (p : panic) : M A := λ w, (Panic p, w).

End Go.

Import Go.

(** ** Primitive operations of the run time *)

Section Runtime.

(** The table behind a map value; reading the nil map sees no entries. *)
Definition entries (h : gmap loc (gmap string Value)) (c : mapref)
  : gmap string Value :=
  match c with
  | NilMap => ∅
  | MapRef l => default ∅ (h !! l)
  end.

(** [val, ok := c[key]] on the dereferenced receiver *)
Definition index (c : Config) (key : string) : M (Value * bool) :=
  λ w, match entries (heap w) c !! key with
       | Some v => (Ret (v, true), w)
       | None => (Ret (VNil, false), w)
       end.

(** [c[key] = value] on the dereferenced receiver *)
Definition assign (c : Config) (key : string) (value : Value) : M unit :=
  λ w, match c with
       | NilMap => (Panic NilMapAssignment, w)
       | MapRef l =>
           (Ret (),
            World (<[l := <[key := value]> (entries (heap w) c)]> (heap w))
                  (sink w))
       end.

(** [Config{}]: a new, empty table. *)
Definition make_map : M mapref :=
  λ w, let l := fresh (dom (heap w)) in
       (Ret (MapRef l), World (<[l := ∅]> (heap w)) (sink w)).

End Runtime.

(** ** Conversions of [float64]

    [float64] values are IEEE 754 binary64 numbers ([spec_float] with
    precision 53 and maximal exponent 1024). *)

Module Float64.

Definition prec : Z := 53.
Definition emax : Z := 1024.

(** The integer part of a finite number, the fraction discarded. *)
Definition trunc (f : spec_float) : Z :=
  match f with
  | S754_finite s m e => cond_Zopp s (Z.shiftl (Zpos m) e)
  | _ => 0
  end.

Definition is_finite (f : spec_float) : bool :=
  match f with
  | S754_zero _ | S754_finite _ _ _ => true
  | _ => false
  end.

(** What the conversion instruction yields when the integer part does not
    fit: the Go specification leaves that result to the implementation;
    this is the value of the gc compiler on amd64. *)
Definition indefinite : Z := - 2 ^ 63.

(** [int64(f)] *)
Definition to_int64 (f : spec_float) : Z :=
  if is_finite f && (- 2 ^ 63 <=? trunc f) && (trunc f <? 2 ^ 63)
  then trunc f
  else indefinite.

(** [uint64(f)] *)
Definition to_uint64 (f : spec_float) : Z :=
  if is_finite f && (0 <=? trunc f) && (trunc f <? 2 ^ 64)
  then trunc f
  else if is_finite f && (- 2 ^ 63 <=? trunc f) && (trunc f <? 0)
  then trunc f + 2 ^ 64
  else 2 ^ 63.

End Float64.

(** ** Type assertions [v.(T)] (single-result form: a mismatch panics) *)

Definition assert_string (v : Value) : M string :=
  match v with
  | VString s => mret s
  | _ => throw (TypeAssertionError (type_of v) TString)
  end.

Definition assert_float64 (v : Value) : M spec_float :=
  match v with
  | VFloat64 f => mret f
  | _ => throw (TypeAssertionError (type_of v) TFloat64)
  end.

Definition assert_int64 (v : Value) : M Z :=
  match v with
  | VInt64 n => mret n
  | _ => throw (TypeAssertionError (type_of v) TInt64)
  end.

Definition assert_uint64 (v : Value) : M Z :=
  match v with
  | VUint64 n => mret n
  | _ => throw (TypeAssertionError (type_of v) TUint64)
  end.

Definition assert_slice (v : Value) : M (list Value) :=
  match v with
  | VSlice es => mret es
  | _ => throw (TypeAssertionError (type_of v) TSlice)
  end.

Definition assert_map (v : Value) : M mapref :=
  match v with
  | VMap r => mret r
  | _ => throw (TypeAssertionError (type_of v) TMap)
  end.

(** ** The logging package and [os.Exit] *)

(** Modelled from the spec: the logging package ([log.Debugf],
    [log.Errorf]) is not among the sources; a call emits one diagnostic,
    recorded here with its format string and arguments. *)
Definition log_emit (lv : level) (format : string) (args : list Value)
  : M unit :=
  λ w, (Ret (), World (heap w) (sink w ++ [LogEntry lv format args])).

Definition log_Debugf := log_emit LDebug.
Definition log_Errorf := log_emit LError.

(** [os.Exit(code)]: the process ends here. *)
Definition os_Exit {A} (code : Z) : M A := λ w, (Exit code, w).

(** ** The accessors of [Config] *)

(** [for key, val := range c { body }] over a table; Go leaves the
    order of iteration unspecified, the embedding takes the order of
    [map_to_list]. *)
Fixpoint for_each {A} (body : A → M unit) (l : list A) : M unit :=
  match l with
  | [] => mret ()
  | x :: l' => body x;; for_each body l'
  end.

Definition Debug (c : Config) : M unit :=
  λ w, for_each
         (λ kv, log_Debugf "config[%s] = %v" [VString kv.1; kv.2])
         (map_to_list (entries (heap w) c)) w.

Definition Get (c : Config) (key : string) : M (Value * option error) :=
  '(val, ok) ← index c key;
  if negb ok then mret (val, Some ErrNoSuchKey)
  else mret (val, None).

Definition GetString (c : Config) (key : string) : M (string * option error) :=
  '(val, ok) ← index c key;
  if negb ok then mret ("", Some ErrNoSuchKey)
  else s ← assert_string val; mret (s, None).

Definition GetInt64 (c : Config) (key : string) : M (Z * option error) :=
  '(val, ok) ← index c key;
  if negb ok then mret (0, Some ErrNoSuchKey)
  else f ← assert_float64 val; mret (Float64.to_int64 f, None).

Definition GetUint64 (c : Config) (key : string) : M (Z * option error) :=
  '(val, ok) ← index c key;
  if negb ok then mret (0, Some ErrNoSuchKey)
  else f ← assert_float64 val; mret (Float64.to_uint64 f, None).

(** The cast through [unsafe.Pointer] reinterprets the
    [map[string]interface{}] as a [Config]: the same table. *)
Definition GetSubConfig (c : Config) (key : string)
  : M (Config * option error) :=
  '(val, err) ← Get c key;
  match err with
  | Some e => empty ← make_map; mret (empty, Some e)
  | None => sc ← assert_map val; mret (sc, None)
  end.

Definition GetRequired (c : Config) (key : string) : M Value :=
  '(val, err) ← Get c key;
  match err with
  | Some _ =>
      log_Errorf "Configuration parameter %s is mandatory" [VString key];;
      os_Exit 1
  | None => mret val
  end.

Definition GetRequiredSubConfig (c : Config) (key : string) : M Config :=
  val ← GetRequired c key;
  assert_map val.

Definition GetRequiredString (c : Config) (key : string) : M string :=
  val ← GetRequired c key;
  assert_string val.

Definition GetRequiredInt64 (c : Config) (key : string) : M Z :=
  val ← GetRequired c key;
  match type_of val with
  | TInt64 => assert_int64 val
  | _ => f ← assert_float64 val; mret (Float64.to_int64 f)
  end.

Definition GetRequiredUint64 (c : Config) (key : string) : M Z :=
  val ← GetRequired c key;
  match type_of val with
  | TUint64 => assert_uint64 val
  | _ => f ← assert_float64 val; mret (Float64.to_uint64 f)
  end.

(** [for _, e := range val { out = append(out, e.(T)) }] *)
Fixpoint collect {A} (assert : Value → M A) (val : list Value) (out : list A)
  : M (list A) :=
  match val with
  | [] => mret out
  | e :: val' => x ← assert e; collect assert val' (out ++ [x])
  end.

Definition GetRequiredStringSlice (c : Config) (key : string)
  : M (list string) :=
  v ← GetRequired c key;
  val ← assert_slice v;
  collect assert_string val [].

Definition GetRequiredUint64Slice (c : Config) (key : string) : M (list Z) :=
  v ← GetRequired c key;
  val ← assert_slice v;
  collect assert_uint64 val [].

Definition GetRequiredInt64Slice (c : Config) (key : string) : M (list Z) :=
  v ← GetRequired c key;
  val ← assert_slice v;
  collect assert_int64 val [].

Definition Set_ (c : Config) (key : string) (value : Value) : M unit :=
  assign c key value.

(** ** The JSON codec ([encoding/json], [unicode/utf8], [strconv])

    [Loads] and [Dumps] are thin wrappers around [json.Unmarshal] and
    [json.Marshal]; what they do is what the codec does, so the codec is
    part of the embedding: the syntax check that [Unmarshal] runs first,
    the decoding of a checked text into [interface{}] values, and the
    conversion of number literals to [float64]. *)

Module Utf8.

Definition code (b : byte) : Z := Z.of_N (Byte.to_N b).
Definition chr (z : Z) : byte := default Byte.x00 (Byte.of_N (Z.to_N z)).

(** [utf8.RuneError], U+FFFD *)
Definition RuneError : Z := 65533.

Definition is_cont (b : byte) : bool := (128 <=? code b) && (code b <=? 191).

Definition cont (b : byte) : Z := code b - 128.

(** [utf8.DecodeRune]: the first rune of [bs] and its width; an invalid or
    short encoding yields [(RuneError, 1)]. *)
Definition DecodeRune (bs : list byte) : Z * nat :=
  match bs with
  | [] => (RuneError, 0%nat)
  | b0 :: r =>
      let c0 := code b0 in
      if c0 <? 128 then (c0, 1%nat)
      else if (194 <=? c0) && (c0 <=? 223) then
        match r with
        | b1 :: _ =>
            if is_cont b1 then ((c0 - 192) * 64 + cont b1, 2%nat)
            else (RuneError, 1%nat)
        | _ => (RuneError, 1%nat)
        end
      else if (224 <=? c0) && (c0 <=? 239) then
        match r with
        | b1 :: b2 :: _ =>
            let lo := if c0 =? 224 then 160 else 128 in
            let hi := if c0 =? 237 then 159 else 191 in
            if (lo <=? code b1) && (code b1 <=? hi) && is_cont b2
            then ((c0 - 224) * 4096 + cont b1 * 64 + cont b2, 3%nat)
            else (RuneError, 1%nat)
        | _ => (RuneError, 1%nat)
        end
      else if (240 <=? c0) && (c0 <=? 244) then
        match r with
        | b1 :: b2 :: b3 :: _ =>
            let lo := if c0 =? 240 then 144 else 128 in
            let hi := if c0 =? 244 then 143 else 191 in
            if (lo <=? code b1) && (code b1 <=? hi) && is_cont b2 && is_cont b3
            then ((c0 - 240) * 262144 + cont b1 * 4096 + cont b2 * 64
                  + cont b3, 4%nat)
            else (RuneError, 1%nat)
        | _ => (RuneError, 1%nat)
        end
      else (RuneError, 1%nat)
  end.

Definition is_surrogate (r : Z) : bool := (55296 <=? r) && (r <? 57344).

(** [utf8.EncodeRune]; a surrogate or a value beyond U+10FFFF is written
    as U+FFFD. *)
Definition EncodeRune (r : Z) : list byte :=
  let r := if (r <? 0) || (1114111 <? r) || is_surrogate r
           then RuneError else r in
  if r <? 128 then [chr r]
  else if r <? 2048 then [chr (192 + r / 64); chr (128 + r mod 64)]
  else if r <? 65536 then
    [chr (224 + r / 4096); chr (128 + (r / 64) mod 64); chr (128 + r mod 64)]
  else
    [chr (240 + r / 262144); chr (128 + (r / 4096) mod 64);
     chr (128 + (r / 64) mod 64); chr (128 + r mod 64)].

End Utf8.

Module Strconv.

Import Utf8.

Local Open Scope byte_scope.
Local Open Scope list_scope.
Local Open Scope Z_scope.

Definition is_digit (b : byte) : bool := (48 <=? code b) && (code b <=? 57).

(** The value of a run of decimal digits, most significant first. *)
Definition digits_value (ds : list byte) : Z :=
  fold_left (λ acc d, 10 * acc + (code d - 48)) ds 0.

Fixpoint span_digits (bs : list byte) : list byte * list byte :=
  match bs with
  | b :: bs' =>
      if is_digit b
      then let '(ds, r) := span_digits bs' in (b :: ds, r)
      else ([], bs)
  | [] => ([], [])
  end.

(** [2 ^ k], and 1 for a negative [k]. *)
Definition pow2 (k : Z) : Z := 2 ^ Z.max 0 k.
Definition pow10 (k : Z) : Z := 10 ^ Z.max 0 k.

(** The position of the leading bit of [num / den] (both positive): the
    [d] with [2 ^ (d - 1) <= num / den < 2 ^ d]. *)
Definition magnitude (num den : Z) : Z :=
  let d0 := Z.log2 num - Z.log2 den in
  if den * pow2 d0 <=? num * pow2 (- d0) then d0 + 1 else d0.

(** The integer nearest to [n / dn], the even one of two equally near. *)
Definition round_even (n dn : Z) : Z :=
  let q := n / dn in
  let r := n mod dn in
  if 2 * r <? dn then q
  else if dn <? 2 * r then q + 1
  else if Z.even q then q else q + 1.

(** The binary64 number nearest to [num / den] (both positive), ties to
    the even mantissa; an infinity when the rounded value exceeds the
    largest finite number. *)
Definition round_ratio (neg : bool) (num den : Z) : spec_float :=
  let emin := 3 - Float64.emax - Float64.prec in
  let e := Z.max (magnitude num den - Float64.prec) emin in
  let m := round_even (num * pow2 (- e)) (den * pow2 e) in
  let '(m, e) := if m =? 2 ^ Float64.prec then (m / 2, e + 1) else (m, e) in
  match m with
  | Zpos p =>
      if e <=? Float64.emax - Float64.prec then S754_finite neg p e
      else S754_infinity neg
  | _ => S754_zero neg
  end.

(** The number [± mant * 10 ^ dexp] as a binary64. *)
Definition of_decimal (neg : bool) (mant dexp : Z) : spec_float :=
  if mant =? 0 then S754_zero neg
  else round_ratio neg (mant * pow10 dexp) (pow10 (- dexp)).

(** [readFloat]: sign, decimal mantissa and decimal exponent of a literal
    of the JSON number grammar. *)
Definition readFloat (s : list byte) : bool * Z * Z :=
  let '(neg, s1) :=
    match s with
    | b :: r => if Byte.eqb b "-" then (true, r) else (false, s)
    | [] => (false, s)
    end in
  let '(int, s2) := span_digits s1 in
  let '(frac, s3) :=
    match s2 with
    | b :: r => if Byte.eqb b "." then span_digits r else ([], s2)
    | [] => ([], s2)
    end in
  let ex :=
    match s3 with
    | b :: r =>
        if Byte.eqb b "e" || Byte.eqb b "E" then
          match r with
          | sg :: r' =>
              if Byte.eqb sg "-" then - digits_value (span_digits r').1
              else if Byte.eqb sg "+" then digits_value (span_digits r').1
              else digits_value (span_digits r).1
          | [] => 0
          end
        else 0
    | [] => 0
    end in
  (neg, digits_value (int ++ frac), ex - Z.of_nat (length frac)).

(** [strconv.ParseFloat(s, 64)] on a literal of the JSON number grammar:
    [None] is the range error of a literal beyond the largest finite
    [float64]. *)
Definition ParseFloat (s : list byte) : option spec_float :=
  let '(neg, mant, dexp) := readFloat s in
  match of_decimal neg mant dexp with
  | S754_infinity _ => None
  | f => Some f
  end.

(** The decimal digits of a natural number, most significant first. *)
Fixpoint digits_loop (fuel : nat) (n : Z) (acc : list byte) : list byte :=
  match fuel with
  | O => acc
  | S fuel =>
      let acc' := chr (48 + n mod 10) :: acc in
      if n <? 10 then acc' else digits_loop fuel (n / 10) acc'
  end.

Definition digits_of (n : Z) : list byte :=
  digits_loop (S (Z.to_nat (Z.log2 n))) n [].

(** The last [n] decimal digits of [x], zeros included. *)
Fixpoint digits_fixed (n : nat) (x : Z) (acc : list byte) : list byte :=
  match n with
  | O => acc
  | S n => digits_fixed n (x / 10) (chr (48 + x mod 10) :: acc)
  end.

(** [x * 2 ^ (e - 2)] counted in units of [10 ^ j] is the fraction
    [numer x e j / denom e j]. *)
Definition numer (x e j : Z) : Z := x * pow2 (e - 2) * pow10 (- j).
Definition denom (e j : Z) : Z := pow2 (2 - e) * pow10 j.

(** The shortest decimal [k * 10 ^ j] that reads back as [m * 2 ^ e]
    ([%e] and [%f] with precision -1).  The candidates at the unit
    [10 ^ j] are [m * 2 ^ e] cut off at that unit and the next multiple
    of the unit; a candidate is acceptable when it lies between the
    midpoints to the neighbouring floating-point numbers (the midpoints
    themselves only for an even mantissa).  The first unit, from the
    largest down, with an acceptable candidate gives the result: the
    nearer candidate when both are acceptable. *)
Fixpoint shortest_loop (fuel : nat) (lo mid hi : Z) (incl : bool) (e j : Z)
  : Z * Z :=
  let den := denom e j in
  let k := numer mid e j / den in
  match fuel with
  | O => (k, j)
  | S fuel =>
      let okdown := (numer lo e j <? k * den)
                    || incl && (numer lo e j =? k * den) in
      let okup := ((k + 1) * den <? numer hi e j)
                  || incl && ((k + 1) * den =? numer hi e j) in
      if okdown && okup then (round_even (numer mid e j) den, j)
      else if okdown then (k, j)
      else if okup then (k + 1, j)
      else shortest_loop fuel lo mid hi incl e (j - 1)
  end.

Definition shortest (m : positive) (e : Z) : Z * Z :=
  let emin := 3 - Float64.emax - Float64.prec in
  let mid := 4 * Zpos m in
  let hi := mid + 2 in
  let lo := if (Zpos m =? 2 ^ (Float64.prec - 1)) && (emin <? e)
            then mid - 1 else mid - 2 in
  let j0 := Z.max 0 (Z.log2 hi + e - 1) in
  let jmin := Z.min 0 e in
  shortest_loop (Z.to_nat (j0 - jmin)) lo mid hi (Z.even (Zpos m)) e j0.

(** [%e] with the shortest digits, the exponent written without
    padding. *)
Definition format_e (k j : Z) : list byte :=
  let ds := digits_of k in
  let x := Z.of_nat (length ds) + j - 1 in
  match ds with
  | [] => []
  | d :: rest =>
      d :: (match rest with [] => [] | _ :: _ => "." :: rest end)
        ++ "e" :: (if x <? 0 then "-" else "+") :: digits_of (Z.abs x)
  end.

(** [%f] with the shortest digits. *)
Definition format_f (k j : Z) : list byte :=
  if 0 <=? j then digits_of (k * 10 ^ j)
  else digits_of (k / 10 ^ (- j))
       ++ "." :: digits_fixed (Z.to_nat (- j)) (k mod 10 ^ (- j)) [].

End Strconv.

Module Json.

Import Utf8 Strconv.

Local Open Scope byte_scope.
Local Open Scope list_scope.

(** The syntax tree of a checked text: literals keep their spelling. *)
Inductive json :=
| JNull
| JTrue
| JFalse
| JNumber (lit : list byte)
| JString (raw : list byte)
| JArray (es : list json)
| JObject (ms : list (list byte * json)).

Definition quote_byte : byte := Byte.x22.

Definition is_space (b : byte) : bool :=
  Byte.eqb b " " || Byte.eqb b Byte.x09 || Byte.eqb b Byte.x0d
  || Byte.eqb b Byte.x0a.

Definition is_hex (b : byte) : bool :=
  is_digit b || ((97 <=? code b) && (code b <=? 102))
  || ((65 <=? code b) && (code b <=? 70)).

Definition is_escape (b : byte) : bool :=
  existsb (Byte.eqb b) ["b"; "f"; "n"; "r"; "t"; "\"; "/"; quote_byte].

Fixpoint skip_space (bs : list byte) : list byte :=
  match bs with
  | b :: bs' => if is_space b then skip_space bs' else bs
  | [] => []
  end.

(** The body of a string literal, the opening quote already read: the
    bytes up to the closing quote and what follows it. *)
Fixpoint scan_string (bs : list byte) : option (list byte * list byte) :=
  match bs with
  | [] => None
  | b :: bs1 =>
      if Byte.eqb b quote_byte then Some ([], bs1)
      else if Byte.eqb b "\" then
        match bs1 with
        | [] => None
        | e :: bs2 =>
            if is_escape e then
              '(raw, rest) ← scan_string bs2; Some (b :: e :: raw, rest)
            else if Byte.eqb e "u" then
              match bs2 with
              | h1 :: h2 :: h3 :: h4 :: bs3 =>
                  if is_hex h1 && is_hex h2 && is_hex h3 && is_hex h4 then
                    '(raw, rest) ← scan_string bs3;
                    Some (b :: e :: h1 :: h2 :: h3 :: h4 :: raw, rest)
                  else None
              | _ => None
              end
            else None
        end
      else if code b <? 32 then None
      else '(raw, rest) ← scan_string bs1; Some (b :: raw, rest)
  end.

(** A number literal: an optional minus sign, then 0 or a run of digits
    that does not start with 0, then optionally a point and digits, then
    optionally e or E, a sign and digits. *)
Definition scan_number (bs : list byte) : option (list byte * list byte) :=
  let '(sgn, bs1) :=
    match bs with
    | b :: r => if Byte.eqb b "-" then ([b], r) else ([], bs)
    | [] => ([], bs)
    end in
  '(int, bs2) ←
    match bs1 with
    | d :: r =>
        if Byte.eqb d "0" then Some ([d], r)
        else if is_digit d then Some (span_digits bs1)
        else None
    | [] => None
    end;
  '(frac, bs3) ←
    match bs2 with
    | b :: r =>
        if Byte.eqb b "." then
          match span_digits r with
          | ([], _) => None
          | (ds, r') => Some (b :: ds, r')
          end
        else Some ([], bs2)
    | [] => Some ([], bs2)
    end;
  '(ex, bs4) ←
    match bs3 with
    | b :: r =>
        if Byte.eqb b "e" || Byte.eqb b "E" then
          let '(sg, r1) :=
            match r with
            | s :: r' =>
                if Byte.eqb s "+" || Byte.eqb s "-" then ([s], r')
                else ([], r)
            | [] => ([], r)
            end in
          match span_digits r1 with
          | ([], _) => None
          | (ds, r') => Some (b :: sg ++ ds, r')
          end
        else Some ([], bs3)
    | [] => Some ([], bs3)
    end;
  Some (sgn ++ int ++ frac ++ ex, bs4).

(** [bs] starts with the bytes of [word]: what follows them. *)
Fixpoint expect (word bs : list byte) : option (list byte) :=
  match word, bs with
  | [], _ => Some bs
  | w :: word', b :: bs' => if Byte.eqb w b then expect word' bs' else None
  | _ :: _, [] => None
  end.

(** The scanner refuses to open more than this many nested arrays and
    objects. *)
Definition maxNestingDepth : Z := 10000.

(** One value at the head of [bs] (no leading space), [depth] arrays and
    objects being open around it. *)
Fixpoint scan_value (fuel : nat) (depth : Z) (bs : list byte)
  : option (json * list byte) :=
  match fuel with
  | O => None
  | S fuel =>
      match bs with
      | [] => None
      | b :: bs1 =>
          if Byte.eqb b "{" then
            if maxNestingDepth <=? depth then None
            else
              match skip_space bs1 with
              | c :: bs2 =>
                  if Byte.eqb c "}" then Some (JObject [], bs2)
                  else
                    '(ms, rest) ← scan_members fuel (depth + 1) (c :: bs2);
                    Some (JObject ms, rest)
              | [] => None
              end
          else if Byte.eqb b "[" then
            if maxNestingDepth <=? depth then None
            else
              match skip_space bs1 with
              | c :: bs2 =>
                  if Byte.eqb c "]" then Some (JArray [], bs2)
                  else
                    '(es, rest) ← scan_elements fuel (depth + 1) (c :: bs2);
                    Some (JArray es, rest)
              | [] => None
              end
          else if Byte.eqb b quote_byte then
            '(raw, rest) ← scan_string bs1; Some (JString raw, rest)
          else if Byte.eqb b "t" then
            rest ← expect ["r"; "u"; "e"] bs1; Some (JTrue, rest)
          else if Byte.eqb b "f" then
            rest ← expect ["a"; "l"; "s"; "e"] bs1; Some (JFalse, rest)
          else if Byte.eqb b "n" then
            rest ← expect ["u"; "l"; "l"] bs1; Some (JNull, rest)
          else
            '(lit, rest) ← scan_number bs; Some (JNumber lit, rest)
      end
  end

(** The elements of an array after its opening bracket, up to and
    including the closing one. *)
with scan_elements (fuel : nat) (depth : Z) (bs : list byte)
  : option (list json * list byte) :=
  match fuel with
  | O => None
  | S fuel =>
      '(v, bs1) ← scan_value fuel depth bs;
      match skip_space bs1 with
      | c :: bs2 =>
          if Byte.eqb c "," then
            '(vs, rest) ← scan_elements fuel depth (skip_space bs2);
            Some (v :: vs, rest)
          else if Byte.eqb c "]" then Some ([v], bs2)
          else None
      | [] => None
      end
  end

(** The members of an object after its opening brace, up to and
    including the closing one. *)
with scan_members (fuel : nat) (depth : Z) (bs : list byte)
  : option (list (list byte * json) * list byte) :=
  match fuel with
  | O => None
  | S fuel =>
      match bs with
      | q :: bs0 =>
          if Byte.eqb q quote_byte then
            '(key, bs1) ← scan_string bs0;
            match skip_space bs1 with
            | c :: bs2 =>
                if Byte.eqb c ":" then
                  '(v, bs3) ← scan_value fuel depth (skip_space bs2);
                  match skip_space bs3 with
                  | c' :: bs4 =>
                      if Byte.eqb c' "," then
                        '(ms, rest) ←
                          scan_members fuel depth (skip_space bs4);
                        Some ((key, v) :: ms, rest)
                      else if Byte.eqb c' "}" then Some ([(key, v)], bs4)
                      else None
                  | [] => None
                  end
                else None
            | [] => None
            end
          else None
      | [] => None
      end
  end.

(** [checkValid]: the whole of [data] is one value between optional
    white space. *)
Definition checkValid (data : list byte) : option json :=
  '(v, rest) ← scan_value (S (length data)) 0 (skip_space data);
  match skip_space rest with
  | [] => Some v
  | _ :: _ => None
  end.

Definition hex_value (b : byte) : Z :=
  if is_digit b then code b - 48
  else if (97 <=? code b) && (code b <=? 102) then code b - 87
  else code b - 55.

(** [getu4]: the code unit of a [\uXXXX] escape at the head of [s], or -1. *)
Definition getu4 (s : list byte) : Z :=
  match s with
  | b :: u :: h1 :: h2 :: h3 :: h4 :: _ =>
      if Byte.eqb b "\" && Byte.eqb u "u"
         && is_hex h1 && is_hex h2 && is_hex h3 && is_hex h4
      then ((hex_value h1 * 16 + hex_value h2) * 16 + hex_value h3) * 16
           + hex_value h4
      else -1
  | _ => -1
  end.

(** [utf16.DecodeRune] *)
Definition utf16_DecodeRune (r1 r2 : Z) : Z :=
  if (55296 <=? r1) && (r1 <? 56320) && (56320 <=? r2) && (r2 <? 57344)
  then (r1 - 55296) * 1024 + (r2 - 56320) + 65536
  else RuneError.

Definition simple_escape (e : byte) : option byte :=
  if Byte.eqb e quote_byte || Byte.eqb e "\" || Byte.eqb e "/"
     || Byte.eqb e "'" then Some e
  else if Byte.eqb e "b" then Some Byte.x08
  else if Byte.eqb e "f" then Some Byte.x0c
  else if Byte.eqb e "n" then Some Byte.x0a
  else if Byte.eqb e "r" then Some Byte.x0d
  else if Byte.eqb e "t" then Some Byte.x09
  else None.

(** [unquote]: the text of a string literal, escapes resolved and the
    result coerced to well-formed UTF-8.  [None] is the [ok = false] of a
    malformed literal. *)
Fixpoint unquote_loop (fuel : nat) (s : list byte) : option (list byte) :=
  match fuel with
  | O => Some []
  | S fuel =>
      match s with
      | [] => Some []
      | c :: s1 =>
          if Byte.eqb c "\" then
            match s1 with
            | [] => None
            | e :: s2 =>
                if Byte.eqb e "u" then
                  let rr := getu4 s in
                  if rr <? 0 then None
                  else
                    let s3 := drop 6 s in
                    if is_surrogate rr then
                      let dec := utf16_DecodeRune rr (getu4 s3) in
                      if negb (Z.eqb dec RuneError) then
                        app (EncodeRune dec) <$> unquote_loop fuel (drop 6 s3)
                      else
                        app (EncodeRune RuneError) <$> unquote_loop fuel s3
                    else app (EncodeRune rr) <$> unquote_loop fuel s3
                else
                  x ← simple_escape e;
                  cons x <$> unquote_loop fuel s2
            end
          else if Byte.eqb c quote_byte || (code c <? 32) then None
          else if code c <? 128 then cons c <$> unquote_loop fuel s1
          else
            let '(rr, size) := DecodeRune s in
            app (EncodeRune rr) <$> unquote_loop fuel (drop size s)
      end
  end.

Definition unquote (s : list byte) : option (list byte) :=
  unquote_loop (length s) s.

(** ** Decoding into [interface{}] and [Unmarshal] *)

(** [d.saveError]: the first error is the one reported. *)
Definition saveError (saved : option error) (err : error) : option error :=
  match saved with
  | None => Some err
  | Some _ => saved
  end.

(** A literal that passed the syntax check always unquotes; the decoder
    panics otherwise. *)
Definition unquote_string (raw : list byte) : M string :=
  match unquote raw with
  | Some bs => mret (string_of_list_byte bs)
  | None => throw PhasePanic
  end.

(** [d.convertNumber]: a literal beyond the range of [float64] is a type
    error, and the value decoded for it is nil.  (A decoder that leaves an
    infinity there instead differs in that value only.) *)
Definition convertNumber (lit : list byte) (saved : option error)
  : Value * option error :=
  match ParseFloat lit with
  | Some f => (VFloat64 f, saved)
  | None =>
      (VNil,
       saveError saved
         (UnmarshalTypeError ("number " +:+ string_of_list_byte lit)))
  end.

(** [d.valueInterface]: a value decoded into an empty interface; an array
    becomes a [[]interface{}], an object a new [map[string]interface{}]. *)
Fixpoint valueInterface (t : json) (saved : option error)
  : M (Value * option error) :=
  match t with
  | JNull => mret (VNil, saved)
  | JTrue => mret (VBool true, saved)
  | JFalse => mret (VBool false, saved)
  | JNumber lit => mret (convertNumber lit saved)
  | JString raw => s ← unquote_string raw; mret (VString s, saved)
  | JArray es =>
      '(vs, saved') ←
        (fix elements (es : list json) (saved : option error)
           : M (list Value * option error) :=
           match es with
           | [] => mret ([], saved)
           | e :: es' =>
               '(v, saved1) ← valueInterface e saved;
               '(vs, saved2) ← elements es' saved1;
               mret (v :: vs, saved2)
           end) es saved;
      mret (VSlice vs, saved')
  | JObject ms =>
      m ← make_map;
      saved' ←
        (fix members (ms : list (list byte * json)) (saved : option error)
           : M (option error) :=
           match ms with
           | [] => mret saved
           | (k, e) :: ms' =>
               key ← unquote_string k;
               '(v, saved1) ← valueInterface e saved;
               assign m key v;;
               members ms' saved1
           end) ms saved;
      mret (VMap m, saved')
  end.

(** [d.object] on a map whose elements are empty interfaces. *)
Fixpoint object (m : mapref) (ms : list (list byte * json))
    (saved : option error) : M (option error) :=
  match ms with
  | [] => mret saved
  | (k, e) :: ms' =>
      key ← unquote_string k;
      '(v, saved1) ← valueInterface e saved;
      assign m key v;;
      object m ms' saved1
  end.

(** [json.Unmarshal(data, &c)] for [c] of type [Config]: the new value of
    [c] and the error.  [null] zeroes a map; an object fills it, making it
    first when it is nil; any other value is a type error and leaves [c]
    as it was. *)
Definition Unmarshal (data : list byte) (c : Config)
  : M (Config * option error) :=
  match checkValid data with
  | None => mret (c, Some SyntaxError)
  | Some t =>
      match t with
      | JNull => mret (NilMap, None)
      | JTrue | JFalse => mret (c, Some (UnmarshalTypeError "bool"))
      | JNumber _ => mret (c, Some (UnmarshalTypeError "number"))
      | JString raw =>
          unquote_string raw;;
          mret (c, Some (UnmarshalTypeError "string"))
      | JArray _ => mret (c, Some (UnmarshalTypeError "array"))
      | JObject ms =>
          m ← match c with
              | NilMap => make_map
              | MapRef _ => mret c
              end;
          saved ← object m ms None;
          mret (m, saved)
      end
  end.

(** ** Encoding ([json.Marshal]) *)

Inductive res (A : Type) :=
| Ok (a : A)
| Err (e : error).
Arguments Ok {A} a.
Arguments Err {A} e.

Definition res_bind {A B} (r : res A) (k : A → res B) : res B :=
  match r with
  | Ok a => k a
  | Err e => Err e
  end.

(** ["0123456789abcdef"[n]] *)
Definition hex_digit (n : Z) : byte :=
  if n <? 10 then chr (48 + n) else chr (87 + n).

(** [htmlSafeSet]: the ASCII bytes written as they are. *)
Definition html_safe (b : byte) : bool :=
  (32 <=? code b) && (code b <? 128)
  && negb (Byte.eqb b quote_byte || Byte.eqb b "\" || Byte.eqb b "<"
           || Byte.eqb b ">" || Byte.eqb b "&").

Definition escape_ascii (b : byte) : list byte :=
  if Byte.eqb b "\" || Byte.eqb b quote_byte then ["\"; b]
  else if Byte.eqb b Byte.x08 then ["\"; "b"]
  else if Byte.eqb b Byte.x0c then ["\"; "f"]
  else if Byte.eqb b Byte.x0a then ["\"; "n"]
  else if Byte.eqb b Byte.x0d then ["\"; "r"]
  else if Byte.eqb b Byte.x09 then ["\"; "t"]
  else ["\"; "u"; "0"; "0"; hex_digit (code b / 16); hex_digit (code b mod 16)].

(** The body of [appendString] with HTML escaping on: safe ASCII is
    copied, other ASCII escaped, an invalid byte written as [�],
    U+2028 and U+2029 escaped, any other rune copied. *)
Fixpoint appendString_loop (fuel : nat) (src : list byte) : list byte :=
  match fuel with
  | O => []
  | S fuel =>
      match src with
      | [] => []
      | b :: src' =>
          if code b <? 128 then
            (if html_safe b then [b] else escape_ascii b)
            ++ appendString_loop fuel src'
          else
            let '(c, size) := DecodeRune src in
            if Z.eqb c RuneError && Nat.eqb size 1 then
              ["\"; "u"; "f"; "f"; "f"; "d"]
              ++ appendString_loop fuel (drop 1 src)
            else if Z.eqb c 8232 || Z.eqb c 8233 then
              ["\"; "u"; "2"; "0"; "2"; hex_digit (c mod 16)]
              ++ appendString_loop fuel (drop size src)
            else take size src ++ appendString_loop fuel (drop size src)
      end
  end.

Definition appendString (s : list byte) : list byte :=
  quote_byte :: appendString_loop (length s) s ++ [quote_byte].

(** [1e-6] and [1e21] as [float64] constants. *)
Definition float_1e_6 : spec_float :=
  Eval vm_compute in of_decimal false 1 (-6).
Definition float_1e21 : spec_float :=
  Eval vm_compute in of_decimal false 1 21.

Definition sign_bytes (neg : bool) : list byte := if neg then ["-"] else [].

(** [floatEncoder]: the shortest decimal that reads back as [f], in the
    format of ES6: positional between [1e-6] and [1e21], with an exponent
    (no leading zero) outside; NaN and the infinities are not
    representable. *)
Definition encode_float (f : spec_float) : res (list byte) :=
  match f with
  | S754_zero s => Ok (sign_bytes s ++ ["0"])
  | S754_finite s m e =>
      let abs := S754_finite false m e in
      let '(k, j) := shortest m e in
      if SFltb abs float_1e_6 || negb (SFltb abs float_1e21)
      then Ok (sign_bytes s ++ format_e k j)
      else Ok (sign_bytes s ++ format_f k j)
  | S754_infinity s => Err (UnsupportedValueError (if s then "-Inf" else "+Inf"))
  | S754_nan => Err (UnsupportedValueError "NaN")
  end.

(** [strconv.FormatInt(n, 10)] *)
Definition format_int (n : Z) : list byte :=
  sign_bytes (n <? 0) ++ digits_of (Z.abs n).

Fixpoint join_comma (parts : list (list byte)) : list byte :=
  match parts with
  | [] => []
  | [p] => p
  | p :: parts' => p ++ "," :: join_comma parts'
  end.

(** The entries of a table in the order the encoder writes them: sorted
    by key. *)
Definition sorted_entries (m : gmap string Value) : list (string * Value) :=
  merge_sort (λ a b, String.le a.1 b.1) (map_to_list m).

(** [e.reflectValue] on an interface value.  [fuel] bounds how many
    tables may be open at once: a path through more tables than the heap
    holds runs through one of them twice, which is the cycle the encoder
    reports.  A value of a type outside the union is given as not
    representable: the model does not carry what the encoder would write
    for it (it writes a Go [int], say), and nothing below turns on it. *)
Fixpoint encode (fuel : nat) (h : gmap loc (gmap string Value)) (v : Value)
    {struct fuel} : res (list byte) :=
  (fix value (v : Value) : res (list byte) :=
     match v with
     | VNil => Ok ["n"; "u"; "l"; "l"]
     | VBool true => Ok ["t"; "r"; "u"; "e"]
     | VBool false => Ok ["f"; "a"; "l"; "s"; "e"]
     | VFloat64 f => encode_float f
     | VInt64 n | VUint64 n => Ok (format_int n)
     | VString s => Ok (appendString (list_byte_of_string s))
     | VSlice es =>
         res_bind
           ((fix elements (es : list Value) : res (list (list byte)) :=
               match es with
               | [] => Ok []
               | e :: es' =>
                   res_bind (value e) (λ b,
                   res_bind (elements es') (λ bs, Ok (b :: bs)))
               end) es)
           (λ bs, Ok ("[" :: join_comma bs ++ ["]"]))
     | VMap NilMap => Ok ["n"; "u"; "l"; "l"]
     | VMap (MapRef l) =>
         match fuel with
         | O => Err (UnsupportedValueError "encountered a cycle")
         | S fuel =>
             res_bind
               ((fix members (kvs : list (string * Value))
                   : res (list (list byte)) :=
                   match kvs with
                   | [] => Ok []
                   | (k, v') :: kvs' =>
                       res_bind (encode fuel h v') (λ b,
                       res_bind (members kvs') (λ bs,
                       Ok ((appendString (list_byte_of_string k)
                            ++ ":" :: b) :: bs)))
                   end) (sorted_entries (entries h (MapRef l))))
               (λ bs, Ok ("{" :: join_comma bs ++ ["}"]))
         end
     | VOther ty => Err (UnsupportedValueError ty)
     end) v.

(** [json.Marshal(c)] for [c] a pointer to a [Config]: the bytes, or nil
    and the error. *)
Definition Marshal (c : Config) : M (list byte * option error) :=
  λ w, match encode (size (heap w)) (heap w) (VMap c) with
       | Ok bs => (Ret (bs, None), w)
       | Err e => (Ret ([], Some e), w)
       end.

End Json.

(** ** Loading and dumping *)

(** [Loads]: the named result [c] starts as the nil map. *)
Definition Loads (data : list byte) : M (Config * option error) :=
  Json.Unmarshal data NilMap.

(** [Dumps]: the receiver is dereferenced by the encoder. *)
Definition Dumps (c : Config) : M (list byte * option error) :=
  Json.Marshal c.

(** The world before anything was allocated or logged. *)
Definition init : world := World ∅ [].

(** Example texts are written with an apostrophe where JSON has a double
    quote. *)
Definition text (s : string) : list byte :=
  map (λ b, if Byte.eqb b "'"%byte then Json.quote_byte else b)
      (list_byte_of_string s).

Definition loaded (s : string) : outcome (Config * option error) * world :=
  Loads (text s) init.

(** The world after the fatal diagnostic for [key]. *)
Definition mandatory (key : string) (w : world) : world :=
  World (heap w)
        (sink w ++ [LogEntry LError "Configuration parameter %s is mandatory"
                      [VString key]]).

(** A call returns an error value to its caller. *)
Definition returns_error {A} (r : outcome (A * option error) * world) : Prop :=
  ∃ a e, r.1 = Ret (a, Some e).

(** A computation leaves every table as it found it. *)
Definition preserves {A} (m : M A) : Prop :=
  ∀ w r, entries (heap (m w).2) r = entries (heap w) r.

(** ** What a checked text decodes to *)

Module Decoded.

Import Json.

(** The error [Unmarshal] reports for the numbers of [t]: that of the
    first literal, in the order of the text, that is out of range. *)
Fixpoint range_error (t : json) : option error :=
  match t with
  | JNumber lit => (convertNumber lit None).2
  | JArray es =>
      (fix elements (es : list json) : option error :=
         match es with
         | [] => None
         | e :: es' => range_error e ∪ elements es'
         end) es
  | JObject ms =>
      (fix members (ms : list (list byte * json)) : option error :=
         match ms with
         | [] => None
         | (_, e) :: ms' => range_error e ∪ members ms'
         end) ms
  | _ => None
  end.

(** Every string literal and key of [t] unquotes. *)
Fixpoint unquotable (t : json) : Prop :=
  match t with
  | JString raw => is_Some (unquote raw)
  | JArray es =>
      (fix elements (es : list json) : Prop :=
         match es with
         | [] => True
         | e :: es' => unquotable e ∧ elements es'
         end) es
  | JObject ms =>
      (fix members (ms : list (list byte * json)) : Prop :=
         match ms with
         | [] => True
         | (k, e) :: ms' => is_Some (unquote k) ∧ unquotable e ∧ members ms'
         end) ms
  | _ => True
  end.

(** The shape of the bytes between the quotes of a checked literal. *)
Inductive escaped : list byte → Prop :=
| escaped_nil : escaped []
| escaped_plain b raw :
    Byte.eqb b quote_byte = false → Byte.eqb b "\" = false →
    (Utf8.code b <? 32) = false →
    escaped raw → escaped (b :: raw)
| escaped_simple e raw :
    is_escape e = true → escaped raw → escaped ("\"%byte :: e :: raw)
| escaped_u h1 h2 h3 h4 raw :
    is_hex h1 && is_hex h2 && is_hex h3 && is_hex h4 = true →
    escaped raw →
    escaped ("\"%byte :: "u"%byte :: h1 :: h2 :: h3 :: h4 :: raw).

End Decoded.

(** Induction over syntax trees, through the lists of elements and
    members. *)
Section JsonInduction.
Import Json.

Variable P : json → Prop.
Hypothesis Hnull : P JNull.
Hypothesis Htrue : P JTrue.
Hypothesis Hfalse : P JFalse.
Hypothesis Hnumber : ∀ lit, P (JNumber lit).
Hypothesis Hstring : ∀ raw, P (JString raw).
Hypothesis Harray : ∀ es, Forall P es → P (JArray es).
Hypothesis Hobject : ∀ ms, Forall (λ kv, P kv.2) ms → P (JObject ms).

Fixpoint json_nested_ind (t : json) : P t :=
  match t with
  | JNull => Hnull
  | JTrue => Htrue
  | JFalse => Hfalse
  | JNumber lit => Hnumber lit
  | JString raw => Hstring raw
  | JArray es =>
      Harray es
        ((fix all (es : list json) : Forall P es :=
            match es with
            | [] => List.Forall_nil P
            | e :: es' =>
                @List.Forall_cons _ P e es' (json_nested_ind e) (all es')
            end) es)
  | JObject ms =>
      Hobject ms
        ((fix all (ms : list (list byte * json))
            : Forall (λ kv, P kv.2) ms :=
            match ms with
            | [] => List.Forall_nil _
            | (k, e) :: ms' =>
                @List.Forall_cons _ (λ kv, P kv.2) (k, e) ms'
                  (json_nested_ind e) (all ms')
            end) ms)
  end.

End JsonInduction.

(** ** Loading from a file *)

(** What [Load] can fail with: the error of [ioutil.ReadFile], or an
    error of [Loads]. *)
Inductive load_error :=
| ReadError (path : string)
| DecodeError (e : error).

(** [ioutil.ReadFile] sees the file system as a partial map from paths to
    contents: a path that cannot be read has none. *)
Definition filesystem := string → option (list byte).

(** [Load]: when the file cannot be read the named result [c] is still
    the nil map. *)
Definition Load (fs : filesystem) (path : string)
  : M (Config * option load_error) :=
  match fs path with
  | None => mret (NilMap, Some (ReadError path))
  | Some data => '(c, err) ← Loads data; mret (c, DecodeError <$> err)
  end.

(** ** Vocabulary of the further properties *)

(** A call ends the process. *)
Definition exits {A} (r : outcome A * world) : Prop := ∃ n, r.1 = Exit n.

(** A computation neither touches the world nor ends the process: it
    returns or panics where it started. *)
Definition pure {A} (m : M A) : Prop :=
  ∀ w, (∃ a, m w = (Ret a, w)) ∨ (∃ p, m w = (Panic p, w)).

(** The diagnostic [Debug] emits for one entry. *)
Definition debug_line (kv : string * Value) : log_entry :=
  LogEntry LDebug "config[%s] = %v" [VString kv.1; kv.2].

(** The values [encoding/json] decodes into an empty interface: nil,
    booleans, [float64] numbers, strings, slices of such values and
    maps. *)
Fixpoint json_shaped (v : Value) : Prop :=
  match v with
  | VNil | VBool _ | VFloat64 _ | VString _ | VMap _ => True
  | VSlice es =>
      (fix all (es : list Value) : Prop :=
         match es with
         | [] => True
         | e :: es' => json_shaped e ∧ all es'
         end) es
  | VInt64 _ | VUint64 _ | VOther _ => False
  end.

(** Every value of the table behind [c] is of the shapes of JSON. *)
Definition shaped_table (w : world) (c : Config) : Prop :=
  ∀ key v, entries (heap w) c !! key = Some v → json_shaped v.

(** [w'] is [w] with more tables: the log and every table of [w] are as
    they were. *)
Definition grows (w w' : world) : Prop :=
  sink w' = sink w ∧ ∀ l, l ∈ dom (heap w) → heap w' !! l = heap w !! l.

(** The loop of the encoder over the entries of a table. *)
Definition encode_members (fuel : nat) (h : gmap loc (gmap string Value)) :=
  fix members (kvs : list (string * Value))
    : Json.res (list (list byte)) :=
    match kvs with
    | [] => Json.Ok []
    | (k, v') :: kvs' =>
        Json.res_bind (Json.encode fuel h v') (λ b,
        Json.res_bind (members kvs') (λ bs,
        Json.Ok ((Json.appendString (list_byte_of_string k)
                  ++ ":"%byte :: b) :: bs)))
    end.

(** The loop of the encoder over the elements of a slice. *)
Definition encode_elements (fuel : nat) (h : gmap loc (gmap string Value)) :=
  fix elements (es : list Value) : Json.res (list (list byte)) :=
    match es with
    | [] => Json.Ok []
    | e :: es' =>
        Json.res_bind (Json.encode fuel h e) (λ b,
        Json.res_bind (elements es') (λ bs, Json.Ok (b :: bs)))
    end.

(** The encoder writes [v] out, given the tables [h] and leave to open
    [fuel] of them at once. *)
Definition encodes (fuel : nat) (h : gmap loc (gmap string Value))
    (v : Value) : Prop :=
  ∃ bs, Json.encode fuel h v = Json.Ok bs.

(** The tables made between [w] and [w']. *)
Definition new_tables (w w' : world) : gset loc :=
  dom (heap w') ∖ dom (heap w).

(** [h] has the tables made between [w] and [w'] as [w'] has them. *)
Definition keeps (w w' : world) (h : gmap loc (gmap string Value)) : Prop :=
  ∀ l, l ∈ new_tables w w' → h !! l = heap w' !! l.

(** [v] can be written out from the tables made between [w] and [w']
    alone, opening no more tables at once than were made. *)
Definition encodable_in (w w' : world) (v : Value) : Prop :=
  ∀ h fuel, keeps w w' h → (size (new_tables w w') ≤ fuel)%nat →
            encodes fuel h v.

(** Whatever the decoder makes of the syntax tree [t] can be written out
    from the tables it made for it. *)
Definition decodes_encodable (t : Json.json) : Prop :=
  ∀ saved w v s w',
    Json.valueInterface t saved w = (Ret (v, s), w') → encodable_in w w' v.

(** The keys the decoder assigns for the members of an object, in the
    order of the text. *)
Definition member_names (ms : list (list byte * Json.json)) : list string :=
  omap (λ kv, string_of_list_byte <$> Json.unquote kv.1) ms.

(** The value of the last member of an object whose name unquotes to
    [key], if there is one. *)
Fixpoint last_member (key : string) (ms : list (list byte * Json.json))
  : option Json.json :=
  match ms with
  | [] => None
  | (k, t) :: ms' =>
      match last_member key ms' with
      | Some t' => Some t'
      | None =>
          if decide (string_of_list_byte <$> Json.unquote k = Some key)
          then Some t else None
      end
  end.

(** What the decoder makes of a value that is no array and no object,
    when it is a string that unquotes or a number within the range of
    [float64]; it needs no table for it. *)
Definition scalar_value (t : Json.json) : option Value :=
  match t with
  | Json.JNull => Some VNil
  | Json.JTrue => Some (VBool true)
  | Json.JFalse => Some (VBool false)
  | Json.JNumber lit => VFloat64 <$> Strconv.ParseFloat lit
  | Json.JString raw =>
      (λ bs, VString (string_of_list_byte bs)) <$> Json.unquote raw
  | Json.JArray _ | Json.JObject _ => None
  end.

(** * Properties *)

(** Unfolds one layer of the method bodies down to the heap. *)
Ltac step :=
  cbv beta delta
    [Get GetString GetInt64 GetUint64 GetSubConfig GetRequired
     GetRequiredSubConfig GetRequiredString GetRequiredInt64
     GetRequiredUint64 GetRequiredStringSlice GetRequiredUint64Slice
     GetRequiredInt64Slice Set_ index assign make_map log_Errorf
     log_Debugf log_emit os_Exit throw mbind M_bind bind mret M_ret ret].

Section Lookup.

Variables (w : world) (c : Config) (key : string).

Lemma index_present v :
  entries (heap w) c !! key = Some v → index c key w = (Ret (v, true), w).
Proof. intros H. unfold index. by rewrite H. Qed.

Lemma index_absent :
  entries (heap w) c !! key = None → index c key w = (Ret (VNil, false), w).
Proof. intros H. unfold index. by rewrite H. Qed.

Lemma Get_present v :
  entries (heap w) c !! key = Some v → Get c key w = (Ret (v, None), w).
Proof. intros H. step. by rewrite H. Qed.

Lemma Get_absent :
  entries (heap w) c !! key = None →
  Get c key w = (Ret (VNil, Some ErrNoSuchKey), w).
Proof. intros H. step. by rewrite H. Qed.

Lemma GetRequired_present v :
  entries (heap w) c !! key = Some v → GetRequired c key w = (Ret v, w).
Proof. intros H. step. by rewrite H. Qed.

Lemma GetRequired_absent :
  entries (heap w) c !! key = None →
  GetRequired c key w = (Exit 1, mandatory key w).
Proof. intros H. step. by rewrite H. Qed.

End Lookup.

Lemma assert_string_mismatch v w :
  type_of v ≠ TString →
  assert_string v w = (Panic (TypeAssertionError (type_of v) TString), w).
Proof. by destruct v. Qed.

Lemma assert_float64_mismatch v w :
  type_of v ≠ TFloat64 →
  assert_float64 v w = (Panic (TypeAssertionError (type_of v) TFloat64), w).
Proof. by destruct v. Qed.

Lemma assert_map_mismatch v w :
  type_of v ≠ TMap →
  assert_map v w = (Panic (TypeAssertionError (type_of v) TMap), w).
Proof. by destruct v. Qed.

(** ** C1: the typed optional accessors on a value of the wrong type *)

(** C1, as the specification has it, fails: the store read from the text
    [{"x":1}] holds a [float64] under "x", and [GetString] on it does not
    return an error value, it panics on the type assertion. *)
Lemma GetString_of_number_returns_no_error :
  (loaded "{'x':1}").1 = Ret (MapRef 1, None) ∧
  GetString (MapRef 1) "x" (loaded "{'x':1}").2
    = (Panic (TypeAssertionError TFloat64 TString), (loaded "{'x':1}").2) ∧
  ¬ returns_error (GetString (MapRef 1) "x" (loaded "{'x':1}").2).
Proof.
  split; [by vm_compute|]. split; [by vm_compute|].
  intros (a & e & H). vm_compute in H. discriminate.
Qed.

(** C1 (amended): when the key is present and the dynamic type of its
    value is not the asserted one ([string] for [GetString], [float64] for
    [GetInt64] and [GetUint64]), the accessor panics with a type-assertion
    error and the world is untouched; no error value is returned.  With the
    asserted type the value comes back with a nil error. *)
Theorem typed_accessors_on_mismatch w c key v :
  entries (heap w) c !! key = Some v →
  (type_of v ≠ TString →
   GetString c key w = (Panic (TypeAssertionError (type_of v) TString), w)) ∧
  (type_of v ≠ TFloat64 →
   GetInt64 c key w = (Panic (TypeAssertionError (type_of v) TFloat64), w) ∧
   GetUint64 c key w = (Panic (TypeAssertionError (type_of v) TFloat64), w)) ∧
  (∀ s, v = VString s → GetString c key w = (Ret (s, None), w)) ∧
  (∀ f, v = VFloat64 f →
   GetInt64 c key w = (Ret (Float64.to_int64 f, None), w) ∧
   GetUint64 c key w = (Ret (Float64.to_uint64 f, None), w)).
Proof.
  intros Hv. repeat split.
  - intros Ht. step. rewrite Hv. simpl. by rewrite assert_string_mismatch.
  - step. rewrite Hv. simpl. by rewrite assert_float64_mismatch.
  - step. rewrite Hv. simpl. by rewrite assert_float64_mismatch.
  - intros s ->. step. by rewrite Hv.
  - subst v. step. by rewrite Hv.
  - subst v. step. by rewrite Hv.
Qed.

Lemma typed_accessors_on_mismatch_witness :
  entries (heap (loaded "{'x':1}").2) (MapRef 1) !! "x"
    = Some (VFloat64 (S754_finite false 4503599627370496 (-52))) ∧
  GetString (MapRef 1) "x" (loaded "{'x':1}").2
    = (Panic (TypeAssertionError TFloat64 TString), (loaded "{'x':1}").2).
Proof.
  assert (H : entries (heap (loaded "{'x':1}").2) (MapRef 1) !! "x"
              = Some (VFloat64 (S754_finite false 4503599627370496 (-52))))
    by (vm_compute; reflexivity).
  split; [exact H|].
  apply (typed_accessors_on_mismatch _ _ _ _ H). simpl. discriminate.
Defined.

(** ** C3: [GetSubConfig] *)

(** C3, as the specification has it, fails: under "x" the store read from
    [{"x":1}] holds a number, not a nested mapping, and [GetSubConfig]
    panics instead of returning an error value. *)
Lemma GetSubConfig_of_number_returns_no_error :
  (loaded "{'x':1}").1 = Ret (MapRef 1, None) ∧
  GetSubConfig (MapRef 1) "x" (loaded "{'x':1}").2
    = (Panic (TypeAssertionError TFloat64 TMap), (loaded "{'x':1}").2) ∧
  ¬ returns_error (GetSubConfig (MapRef 1) "x" (loaded "{'x':1}").2).
Proof.
  split; [by vm_compute|]. split; [by vm_compute|].
  intros (a & e & H). vm_compute in H. discriminate.
Qed.

(** C3 (amended): on an absent key [GetSubConfig] returns [ErrNoSuchKey]
    together with a new empty [Config]; on a value that is not a
    [map[string]interface{}] it panics with a type-assertion error; on a
    nested mapping it returns, with a nil error, the very table that is
    stored, and the world is untouched.  On the store read from
    [{"x":{"a":1}}], [GetInt64("a")] on the result of [GetSubConfig("x")]
    is 1. *)
Theorem GetSubConfig_cases w c key :
  (entries (heap w) c !! key = None →
   ∃ l, heap w !! l = None ∧
        GetSubConfig c key w
        = (Ret (MapRef l, Some ErrNoSuchKey),
           World (<[l := ∅]> (heap w)) (sink w))) ∧
  (∀ v, entries (heap w) c !! key = Some v → type_of v ≠ TMap →
        GetSubConfig c key w
        = (Panic (TypeAssertionError (type_of v) TMap), w)) ∧
  (∀ r, entries (heap w) c !! key = Some (VMap r) →
        GetSubConfig c key w = (Ret (r, None), w)) ∧
  (∃ c0 sub w0,
     loaded "{'x':{'a':1}}" = (Ret (c0, None), w0) ∧
     GetSubConfig c0 "x" w0 = (Ret (sub, None), w0) ∧
     GetInt64 sub "a" w0 = (Ret (1, None), w0)).
Proof.
  repeat split.
  - intros H. exists (fresh (dom (heap w))). split.
    + apply not_elem_of_dom, is_fresh.
    + step. by rewrite H.
  - intros v H Ht. step. rewrite H. simpl. by rewrite assert_map_mismatch.
  - intros r H. step. by rewrite H.
  - exists (MapRef 1), (MapRef 2), (loaded "{'x':{'a':1}}").2.
    repeat split; by vm_compute.
Qed.

Lemma GetSubConfig_cases_witness :
  entries (heap init) NilMap !! "x" = None ∧
  ∃ l, heap init !! l = None ∧
       GetSubConfig NilMap "x" init
       = (Ret (MapRef l, Some ErrNoSuchKey),
          World (<[l := ∅]> (heap init)) (sink init)).
Proof.
  assert (H : entries (heap init) NilMap !! "x" = None) by reflexivity.
  split; [exact H|].
  exact (proj1 (GetSubConfig_cases init NilMap "x") H).
Defined.

(** Writing through the sub-configuration writes into the parent's nested
    table: the two are one table. *)
Lemma GetSubConfig_aliases w c key r k v :
  entries (heap w) c !! key = Some (VMap r) →
  ∃ sub, GetSubConfig c key w = (Ret (sub, None), w) ∧
         ∀ w', Set_ sub k v w = (Ret (), w') →
               entries (heap w') r !! k = Some v.
Proof.
  intros H. exists r. split.
  - step. by rewrite H.
  - intros w'. step. destruct r as [|l]; [done|].
    intros [= <-]. simpl. rewrite lookup_insert_eq. simpl.
    by rewrite lookup_insert_eq.
Qed.

(** ** C4: the required slice accessors *)

Lemma collect_strings ss out w :
  collect assert_string (VString <$> ss) out w = (Ret (out ++ ss), w).
Proof.
  revert out. induction ss as [|s ss IH]; intros out; simpl.
  - by rewrite app_nil_r.
  - step. simpl. fold (@collect string). rewrite IH.
    by rewrite <- app_assoc.
Qed.

Lemma collect_int64s ns out w :
  collect assert_int64 (VInt64 <$> ns) out w = (Ret (out ++ ns), w).
Proof.
  revert out. induction ns as [|n ns IH]; intros out; simpl.
  - by rewrite app_nil_r.
  - step. simpl. fold (@collect Z). rewrite IH.
    by rewrite <- app_assoc.
Qed.

Lemma collect_uint64s ns out w :
  collect assert_uint64 (VUint64 <$> ns) out w = (Ret (out ++ ns), w).
Proof.
  revert out. induction ns as [|n ns IH]; intros out; simpl.
  - by rewrite app_nil_r.
  - step. simpl. fold (@collect Z). rewrite IH.
    by rewrite <- app_assoc.
Qed.

(** The first element whose assertion panics ends the loop. *)
Lemma collect_panics {A} (assert : Value → M A) good bad rest out p w :
  (∀ v, v ∈ good → ∃ x, ∀ w, assert v w = (Ret x, w)) →
  assert bad w = (Panic p, w) →
  collect assert (good ++ bad :: rest) out w = (Panic p, w).
Proof.
  revert out. induction good as [|g good IH]; intros out Hg Hb; simpl.
  - step. by rewrite Hb.
  - destruct (Hg g) as [x Hx]; [left|].
    step. rewrite Hx. apply IH; [|done].
    intros v Hv. apply Hg. by right.
Qed.

(** Every element is asserted in turn and the results come back in
    order. *)
Lemma GetRequiredStringSlice_strings w c key ss :
  entries (heap w) c !! key = Some (VSlice (VString <$> ss)) →
  GetRequiredStringSlice c key w = (Ret ss, w).
Proof.
  intros H. unfold GetRequiredStringSlice.
  unfold mbind, M_bind, bind. rewrite (GetRequired_present _ _ _ _ H).
  simpl. apply (collect_strings ss []).
Qed.

Lemma GetRequiredInt64Slice_int64s w c key ns :
  entries (heap w) c !! key = Some (VSlice (VInt64 <$> ns)) →
  GetRequiredInt64Slice c key w = (Ret ns, w).
Proof.
  intros H. unfold GetRequiredInt64Slice.
  unfold mbind, M_bind, bind. rewrite (GetRequired_present _ _ _ _ H).
  simpl. apply (collect_int64s ns []).
Qed.

Lemma GetRequiredUint64Slice_uint64s w c key ns :
  entries (heap w) c !! key = Some (VSlice (VUint64 <$> ns)) →
  GetRequiredUint64Slice c key w = (Ret ns, w).
Proof.
  intros H. unfold GetRequiredUint64Slice.
  unfold mbind, M_bind, bind. rewrite (GetRequired_present _ _ _ _ H).
  simpl. apply (collect_uint64s ns []).
Qed.

(** The numeric slice accessors assert [int64] and [uint64] on each
    element, so they panic on any element that is a [float64], which is
    what every number read from JSON is. *)
Lemma numeric_slices_panic_on_float64 w c key good f rest :
  entries (heap w) c !! key
    = Some (VSlice ((VInt64 <$> good) ++ VFloat64 f :: rest)) →
  GetRequiredInt64Slice c key w
    = (Panic (TypeAssertionError TFloat64 TInt64), w).
Proof.
  intros H. unfold GetRequiredInt64Slice.
  unfold mbind, M_bind, bind. rewrite (GetRequired_present _ _ _ _ H).
  simpl. apply collect_panics; [|done].
  intros v [n [-> _]]%list_elem_of_fmap. by exists n.
Qed.

(** C4 at the failing input: on the store read from [{"arr":[1,2]}] the
    accessors [GetRequiredInt64Slice] and [GetRequiredUint64Slice] panic,
    while [GetRequiredStringSlice] on ["a","b"] returns the two strings in
    order, a string slice holding numbers panics, and the scalar
    [GetRequiredInt64] accepts the same JSON number. *)
Theorem numeric_slices_of_json_numbers_panic :
  (loaded "{'arr':[1,2]}").1 = Ret (MapRef 1, None) ∧
  GetRequiredInt64Slice (MapRef 1) "arr" (loaded "{'arr':[1,2]}").2
    = (Panic (TypeAssertionError TFloat64 TInt64),
       (loaded "{'arr':[1,2]}").2) ∧
  GetRequiredUint64Slice (MapRef 1) "arr" (loaded "{'arr':[1,2]}").2
    = (Panic (TypeAssertionError TFloat64 TUint64),
       (loaded "{'arr':[1,2]}").2) ∧
  GetRequiredStringSlice (MapRef 1) "arr" (loaded "{'arr':[1,2]}").2
    = (Panic (TypeAssertionError TFloat64 TString),
       (loaded "{'arr':[1,2]}").2) ∧
  (GetRequiredStringSlice (MapRef 1) "arr" (loaded "{'arr':['a','b']}").2).1
    = Ret ["a"; "b"] ∧
  (GetRequiredInt64 (MapRef 1) "arr" (loaded "{'arr':1}").2).1 = Ret 1.
Proof. repeat split; by vm_compute. Qed.

(** ** C5: [GetInt64] truncates toward zero *)

(** [trunc] discards the fraction: it is the quotient rounded toward zero
    ([Z.quot]) of the signed mantissa by the weight of the fraction. *)
Lemma trunc_toward_zero s m e :
  Float64.trunc (S754_finite s m e)
  = if 0 <=? e then cond_Zopp s (Zpos m) * 2 ^ e
    else cond_Zopp s (Zpos m) ÷ 2 ^ (- e).
Proof.
  unfold Float64.trunc. destruct (Z.leb_spec 0 e) as [He|He].
  - rewrite Z.shiftl_mul_pow2 by done. destruct s; simpl; lia.
  - rewrite <- (Z.opp_involutive e) at 1.
    rewrite Z.shiftl_opp_r, Z.shiftr_div_pow2 by lia.
    assert (0 < 2 ^ (- e)) by (apply Z.pow_pos_nonneg; lia).
    destruct s; unfold cond_Zopp.
    + rewrite Z.quot_opp_l by lia.
      by rewrite Z.quot_div_nonneg by lia.
    + by rewrite Z.quot_div_nonneg by lia.
Qed.

Lemma of_decimal_not_nan neg mant dexp :
  Strconv.of_decimal neg mant dexp ≠ S754_nan.
Proof.
  unfold Strconv.of_decimal, Strconv.round_ratio.
  repeat case_match; done.
Qed.

(** A literal that [ParseFloat] accepts denotes a finite number. *)
Lemma ParseFloat_finite lit f :
  Strconv.ParseFloat lit = Some f → Float64.is_finite f = true.
Proof.
  unfold Strconv.ParseFloat.
  destruct (Strconv.readFloat lit) as [[neg mant] dexp].
  pose proof (of_decimal_not_nan neg mant dexp).
  destruct (Strconv.of_decimal neg mant dexp); try done; by intros [= <-].
Qed.

(** C5, as the specification has it, fails for a number whose integer
    part is beyond [int64].  The texts [{"x":1e19}] and
    [{"x":9223372036854775807}] load without error; the numbers stored are
    finite, with the integer parts [10 ^ 19] and [2 ^ 63]; [GetInt64]
    returns a nil error and [- 2 ^ 63], which is not the integer part (no
    [int64] is). *)
Lemma GetInt64_beyond_int64_is_not_the_integer_part :
  (loaded "{'x':1e19}").1 = Ret (MapRef 1, None) ∧
  entries (heap (loaded "{'x':1e19}").2) (MapRef 1) !! "x"
    = Some (VFloat64 (S754_finite false 4882812500000000 11)) ∧
  Float64.trunc (S754_finite false 4882812500000000 11)
    = 10000000000000000000 ∧
  GetInt64 (MapRef 1) "x" (loaded "{'x':1e19}").2
    = (Ret (-9223372036854775808, None), (loaded "{'x':1e19}").2) ∧
  (loaded "{'x':9223372036854775807}").1 = Ret (MapRef 1, None) ∧
  entries (heap (loaded "{'x':9223372036854775807}").2) (MapRef 1) !! "x"
    = Some (VFloat64 (S754_finite false 4503599627370496 11)) ∧
  Float64.trunc (S754_finite false 4503599627370496 11)
    = 9223372036854775808 ∧
  GetInt64 (MapRef 1) "x" (loaded "{'x':9223372036854775807}").2
    = (Ret (-9223372036854775808, None),
       (loaded "{'x':9223372036854775807}").2).
Proof. repeat split; vm_compute; reflexivity. Qed.

(** C5 (amended): [GetInt64] on a key holding a finite [float64] (a
    number read from JSON without error is one) returns a nil error and,
    whenever the integer part of the number fits in an [int64], that
    integer part: the fraction is discarded, not rounded.  Read from JSON,
    42 gives 42, 3.9 gives 3 and -3.9 gives -3. *)
Theorem GetInt64_truncates w c key f :
  entries (heap w) c !! key = Some (VFloat64 f) →
  Float64.is_finite f = true →
  (∃ n, GetInt64 c key w = (Ret (n, None), w) ∧
        (- 2 ^ 63 ≤ Float64.trunc f < 2 ^ 63 → n = Float64.trunc f)) ∧
  (GetInt64 (MapRef 1) "x" (loaded "{'x':42}").2).1 = Ret (42, None) ∧
  (GetInt64 (MapRef 1) "x" (loaded "{'x':3.9}").2).1 = Ret (3, None) ∧
  (GetInt64 (MapRef 1) "x" (loaded "{'x':-3.9}").2).1 = Ret (-3, None).
Proof.
  intros H Hf. split; [|repeat split; by vm_compute].
  exists (Float64.to_int64 f). split.
  - step. by rewrite H.
  - intros [Hlo Hhi]. unfold Float64.to_int64. rewrite Hf.
    apply Z.leb_le in Hlo. apply Z.ltb_lt in Hhi.
    fold (2 ^ 63) in *. by rewrite Hlo, Hhi.
Qed.

Lemma GetInt64_truncates_witness :
  entries (heap (loaded "{'x':3.9}").2) (MapRef 1) !! "x"
    = Some (VFloat64 (S754_finite false 8782019273372467 (-51))) ∧
  ∃ n, GetInt64 (MapRef 1) "x" (loaded "{'x':3.9}").2
       = (Ret (n, None), (loaded "{'x':3.9}").2) ∧
       (- 2 ^ 63 ≤ Float64.trunc (S754_finite false 8782019273372467 (-51))
        < 2 ^ 63 →
        n = Float64.trunc (S754_finite false 8782019273372467 (-51))).
Proof.
  assert (H : entries (heap (loaded "{'x':3.9}").2) (MapRef 1) !! "x"
              = Some (VFloat64 (S754_finite false 8782019273372467 (-51))))
    by (vm_compute; reflexivity).
  split; [exact H|].
  exact (proj1 (GetInt64_truncates _ _ _ _ H eq_refl)).
Defined.

(** ** C7: a required accessor on an absent key ends the process *)

(** C7: on an absent key every [GetRequired*] call logs, at error level,
    the diagnostic whose argument is the key and ends the process with
    exit status 1; nothing is returned to the caller. *)
Theorem GetRequired_family_exits w c key :
  entries (heap w) c !! key = None →
  GetRequired c key w = (Exit 1, mandatory key w) ∧
  GetRequiredSubConfig c key w = (Exit 1, mandatory key w) ∧
  GetRequiredString c key w = (Exit 1, mandatory key w) ∧
  GetRequiredInt64 c key w = (Exit 1, mandatory key w) ∧
  GetRequiredUint64 c key w = (Exit 1, mandatory key w) ∧
  GetRequiredStringSlice c key w = (Exit 1, mandatory key w) ∧
  GetRequiredUint64Slice c key w = (Exit 1, mandatory key w) ∧
  GetRequiredInt64Slice c key w = (Exit 1, mandatory key w).
Proof.
  intros H. pose proof (GetRequired_absent w c key H) as HR.
  repeat split; [done|..];
    unfold GetRequiredSubConfig, GetRequiredString, GetRequiredInt64,
      GetRequiredUint64, GetRequiredStringSlice, GetRequiredUint64Slice,
      GetRequiredInt64Slice, mbind, M_bind, bind; by rewrite HR.
Qed.

Lemma GetRequired_family_exits_witness :
  GetRequiredString NilMap "port" init
  = (Exit 1,
     World ∅ [LogEntry LError "Configuration parameter %s is mandatory"
                [VString "port"]]).
Proof.
  assert (H : entries (heap init) NilMap !! "port" = None) by reflexivity.
  exact (proj1 (proj2 (proj2 (GetRequired_family_exits init NilMap "port" H)))).
Defined.

(** ** C8: [Get] and [Set] *)

Lemma Set_allocated w l key v :
  Set_ (MapRef l) key v w
  = (Ret (),
     World (<[l := <[key := v]> (entries (heap w) (MapRef l))]> (heap w))
           (sink w)).
Proof. reflexivity. Qed.




(** ** C10: the text [null] loads as the nil map *)

(** C10: [Loads] accepts the text [null] without error and returns the
    nil map; on it [Get] returns [ErrNoSuchKey] for every key, and [Set]
    panics on the assignment into a nil map without inserting anything. *)
Theorem Loads_null_is_nil_map w key v :
  Loads (text "null") w = (Ret (NilMap, None), w) ∧
  Get NilMap key w = (Ret (VNil, Some ErrNoSuchKey), w) ∧
  Set_ NilMap key v w = (Panic NilMapAssignment, w).
Proof. repeat split. Qed.

(** ** C6: what [Loads] accepts *)

Section ScanString.
Import Json Decoded.

Lemma scan_string_escaped n bs raw rest :
  (length bs ≤ n)%nat → scan_string bs = Some (raw, rest) → escaped raw.
Proof.
  revert bs raw rest. induction n as [|n IH]; intros bs raw rest Hn.
  { destruct bs; [done|simpl in Hn; lia]. }
  destruct bs as [|b bs1]; [done|]. simpl in Hn. simpl.
  destruct (Byte.eqb b quote_byte) eqn:Hq.
  { intros [= <- <-]. constructor. }
  destruct (Byte.eqb b "\") eqn:Hb.
  - apply Byte.byte_dec_bl in Hb as ->.
    destruct bs1 as [|e bs2]; [done|]. simpl in Hn.
    destruct (is_escape e) eqn:He.
    + destruct (scan_string bs2) as [[raw' rest']|] eqn:Hs; [|done].
      intros [= <- <-]. apply escaped_simple; [done|].
      eapply (IH bs2); [lia|done].
    + destruct (Byte.eqb e "u") eqn:Hu; [|done].
      apply Byte.byte_dec_bl in Hu as ->.
      destruct bs2 as [|h1 [|h2 [|h3 [|h4 bs3]]]]; try done.
      simpl in Hn.
      destruct (is_hex h1 && is_hex h2 && is_hex h3 && is_hex h4) eqn:Hh;
        [|done].
      destruct (scan_string bs3) as [[raw' rest']|] eqn:Hs; [|done].
      intros [= <- <-]. apply escaped_u; [done|].
      eapply (IH bs3); [lia|done].
  - destruct (Utf8.code b <? 32) eqn:Hc; [done|].
    destruct (scan_string bs1) as [[raw' rest']|] eqn:Hs; [|done].
    intros [= <- <-]. apply escaped_plain; try done.
    eapply (IH bs1); [lia|done].
Qed.

End ScanString.

Section Unquote.
Import Json Decoded Utf8.

Lemma is_escape_simple e :
  is_escape e = true →
  Byte.eqb e "u" = false ∧ is_Some (simple_escape e).
Proof. destruct e; (done || (intros _; split; [done|by eexists])). Qed.

Lemma hex_value_nonneg h : is_hex h = true → 0 ≤ hex_value h.
Proof. destruct h; (done || (intros _; by vm_compute)). Qed.

Lemma escaped_tail b raw :
  escaped (b :: raw) → 128 ≤ code b → escaped raw.
Proof.
  inversion 1; subst; [done|..]; intros Hc; by vm_compute in Hc.
Qed.

Lemma DecodeRune_width c s rr size :
  DecodeRune (c :: s) = (rr, size) →
  size = 1%nat
  ∨ (∃ b1 r, s = b1 :: r ∧ size = 2%nat ∧ 128 ≤ code b1)
  ∨ (∃ b1 b2 r, s = b1 :: b2 :: r ∧ size = 3%nat
                ∧ 128 ≤ code b1 ∧ 128 ≤ code b2)
  ∨ (∃ b1 b2 b3 r, s = b1 :: b2 :: b3 :: r ∧ size = 4%nat
                   ∧ 128 ≤ code b1 ∧ 128 ≤ code b2 ∧ 128 ≤ code b3).
Proof.
  unfold DecodeRune, is_cont.
  repeat case_match; intros [= <- <-]; auto;
    repeat match goal with
           | H : _ && _ = true |- _ => apply andb_true_iff in H as [? ?]
           | H : (_ <=? _) = true |- _ => apply Z.leb_le in H
           end;
    first [ right; left; eexists _, _; repeat split; lia
          | right; right; left; eexists _, _, _; repeat split; lia
          | right; right; right; eexists _, _, _, _; repeat split; lia ].
Qed.

Lemma getu4_shape s :
  0 ≤ getu4 s →
  ∃ h1 h2 h3 h4 r,
    s = "\"%byte :: "u"%byte :: h1 :: h2 :: h3 :: h4 :: r
    ∧ is_hex h1 && is_hex h2 && is_hex h3 && is_hex h4 = true.
Proof.
  unfold getu4.
  destruct s as [|b [|u [|h1 [|h2 [|h3 [|h4 r]]]]]]; try (intros; lia).
  destruct (Byte.eqb b "\") eqn:Hb; [|simpl; lia].
  destruct (Byte.eqb u "u") eqn:Hu; [|simpl; lia].
  apply Byte.byte_dec_bl in Hb as ->. apply Byte.byte_dec_bl in Hu as ->.
  simpl. destruct (is_hex h1 && is_hex h2 && is_hex h3 && is_hex h4) eqn:Hh;
    [|lia].
  intros _. by eexists _, _, _, _, _.
Qed.

Lemma getu4_nonneg h1 h2 h3 h4 r :
  is_hex h1 && is_hex h2 && is_hex h3 && is_hex h4 = true →
  0 ≤ getu4 ("\"%byte :: "u"%byte :: h1 :: h2 :: h3 :: h4 :: r).
Proof.
  intros H. unfold getu4. simpl. rewrite H.
  repeat (apply andb_true_iff in H as [H ?]).
  repeat match goal with
         | H : is_hex _ = true |- _ => apply hex_value_nonneg in H
         end.
  lia.
Qed.

Lemma escaped_after_u h1 h2 h3 h4 r :
  escaped ("\"%byte :: "u"%byte :: h1 :: h2 :: h3 :: h4 :: r) →
  escaped r.
Proof. inversion 1; subst; done. Qed.

Lemma unquote_loop_escaped fuel raw :
  escaped raw → (length raw ≤ fuel)%nat → is_Some (unquote_loop fuel raw).
Proof.
  revert raw. induction fuel as [|fuel IH]; intros raw Hesc Hlen.
  { by eexists. }
  assert (Hfmap : ∀ (f : list byte → list byte) s,
             escaped s → (length s ≤ fuel)%nat →
             is_Some (f <$> unquote_loop fuel s)).
  { intros f s Hs Hl. destruct (IH s Hs Hl) as [x ->]. by eexists. }
  inversion Hesc as [|b raw' Hq Hb Hc Hraw'|e raw' He Hraw'
                    |h1 h2 h3 h4 raw' Hh Hraw']; subst; simpl in Hlen.
  - by eexists.
  - cbn [unquote_loop]. rewrite Hb, Hq, Hc. cbn [orb].
    destruct (code b <? 128) eqn:H128; [apply Hfmap; [done|lia]|].
    apply Z.ltb_ge in H128.
    destruct (DecodeRune (b :: raw')) as [rr size] eqn:Hd.
    assert (1 ≤ size)%nat as Hsize.
    { apply DecodeRune_width in Hd
        as [->|[(? & ? & _ & -> & _)|[(? & ? & ? & _ & -> & _)
          |(? & ? & ? & ? & _ & -> & _)]]]; lia. }
    apply Hfmap; [|rewrite length_drop; cbn [length]; lia].
    apply DecodeRune_width in Hd
      as [->|[(b1 & r & -> & -> & ?)|[(b1 & b2 & r & -> & -> & ? & ?)
        |(b1 & b2 & b3 & r & -> & -> & ? & ? & ?)]]]; simpl.
    + done.
    + by apply (escaped_tail b1).
    + apply (escaped_tail b2); [|done]. by apply (escaped_tail b1).
    + apply (escaped_tail b3); [|done]. apply (escaped_tail b2); [|done].
      by apply (escaped_tail b1).
  - cbn [unquote_loop]. change (Byte.eqb "\" "\") with true. cbv iota.
    destruct (is_escape_simple e He) as [-> [x ->]]. simpl.
    apply Hfmap; [done|lia].
  - cbn [unquote_loop]. change (Byte.eqb "\" "\") with true.
    change (Byte.eqb "u" "u") with true. cbv iota.
    pose proof (getu4_nonneg h1 h2 h3 h4 raw' Hh) as Hrr.
    set (s := "\"%byte :: "u"%byte :: h1 :: h2 :: h3 :: h4 :: raw') in *.
    destruct (getu4 s <? 0) eqn:Hneg; [apply Z.ltb_lt in Hneg; lia|].
    change (drop 6 s) with raw'.
    destruct (is_surrogate (getu4 s)); [|apply Hfmap; [done|lia]].
    destruct (negb (Z.eqb (utf16_DecodeRune (getu4 s) (getu4 raw')) RuneError))
      eqn:Hdec; [|apply Hfmap; [done|lia]].
    apply Hfmap; [|rewrite length_drop; lia].
    assert (0 ≤ getu4 raw') as Hr1.
    { unfold utf16_DecodeRune in Hdec.
      destruct (_ && _) eqn:Hc in Hdec; [|done].
      repeat (apply andb_true_iff in Hc as [Hc ?]). lia. }
    apply getu4_shape in Hr1 as (k1 & k2 & k3 & k4 & r & -> & _).
    simpl. by eapply escaped_after_u.
Qed.

Lemma scan_string_unquote bs raw rest :
  scan_string bs = Some (raw, rest) → is_Some (unquote raw).
Proof.
  intros H. apply unquote_loop_escaped; [|done].
  by eapply scan_string_escaped.
Qed.

End Unquote.

Section ScanValue.
Import Json Decoded.

Lemma scan_unquotable fuel :
  (∀ d bs t rest, scan_value fuel d bs = Some (t, rest) → unquotable t) ∧
  (∀ d bs es rest,
     scan_elements fuel d bs = Some (es, rest) → unquotable (JArray es)) ∧
  (∀ d bs ms rest,
     scan_members fuel d bs = Some (ms, rest) → unquotable (JObject ms)).
Proof.
  induction fuel as [|fuel (IHv & IHe & IHm)]; [by repeat split|].
  repeat split; intros d bs; simpl.
  - intros t rest H.
    repeat (case_match; simplify_option_eq; try done).
    all: try by eapply scan_string_unquote.
    all: try by eapply IHm.
    all: try by eapply IHe.
  - intros es rest.
    destruct (scan_value fuel d bs) as [[v bs1]|] eqn:Hv; [|done]. simpl.
    destruct (skip_space bs1) as [|c bs2]; [done|].
    destruct (Byte.eqb c ",").
    + destruct (scan_elements fuel d (skip_space bs2)) as [[vs r]|] eqn:He;
        [|done].
      intros [= <- <-]. split; [by eapply IHv|]. by eapply (IHe _ _ vs).
    + destruct (Byte.eqb c "]"); [|done].
      intros [= <- <-]. split; [by eapply IHv|done].
  - intros ms rest. destruct bs as [|q bs0]; [done|].
    destruct (Byte.eqb q quote_byte); [|done].
    destruct (scan_string bs0) as [[key bs1]|] eqn:Hk; [|done]. simpl.
    destruct (skip_space bs1) as [|c bs2]; [done|].
    destruct (Byte.eqb c ":"); [|done].
    destruct (scan_value fuel d (skip_space bs2)) as [[v bs3]|] eqn:Hv;
      [|done]. simpl.
    destruct (skip_space bs3) as [|c' bs4]; [done|].
    destruct (Byte.eqb c' ",").
    + destruct (scan_members fuel d (skip_space bs4)) as [[ms' r]|] eqn:Hm;
        [|done].
      intros [= <- <-].
      split; [by eapply scan_string_unquote|].
      split; [by eapply IHv|]. by eapply (IHm _ _ ms').
    + destruct (Byte.eqb c' "}"); [|done].
      intros [= <- <-].
      split; [by eapply scan_string_unquote|].
      split; [by eapply IHv|done].
Qed.

Lemma checkValid_unquotable data t :
  checkValid data = Some t → unquotable t.
Proof.
  unfold checkValid.
  destruct (scan_value _ _ _) as [[v rest]|] eqn:H; [|done]. simpl.
  destruct (skip_space rest); [|done]. intros [= <-].
  by eapply (proj1 (scan_unquotable _)).
Qed.

End ScanValue.

Section Decode.
Import Json Decoded.

Lemma saveError_union saved e : saveError saved e = saved ∪ Some e.
Proof. by destruct saved. Qed.

Lemma option_union_assoc {A} (a b c : option A) :
  a ∪ (b ∪ c) = (a ∪ b) ∪ c.
Proof. by destruct a, b, c. Qed.

Lemma option_union_None_r {A} (a : option A) : a ∪ None = a.
Proof. by destruct a. Qed.

Lemma convertNumber_saved lit saved :
  (convertNumber lit saved).2 = saved ∪ (convertNumber lit None).2.
Proof.
  unfold convertNumber. destruct (Strconv.ParseFloat lit); simpl.
  - by rewrite option_union_None_r.
  - by rewrite saveError_union.
Qed.

Lemma unquote_string_returns raw w :
  is_Some (unquote raw) →
  ∃ s, unquote raw = Some (list_byte_of_string s)
       ∧ unquote_string raw w = (Ret s, w).
Proof.
  intros [bs H]. exists (string_of_list_byte bs). unfold unquote_string.
  rewrite H. by rewrite list_byte_of_string_of_list_byte.
Qed.

Lemma valueInterface_returns t :
  unquotable t →
  ∀ saved w, ∃ v w',
    valueInterface t saved w = (Ret (v, saved ∪ range_error t), w').
Proof.
  induction t as [| | |lit|raw|es IH|ms IH] using json_nested_ind;
    intros Hu saved w.
  - eexists _, _. simpl. by rewrite option_union_None_r.
  - eexists _, _. simpl. by rewrite option_union_None_r.
  - eexists _, _. simpl. by rewrite option_union_None_r.
  - exists (convertNumber lit saved).1, w. cbn [valueInterface range_error].
    rewrite <- convertNumber_saved. unfold mret, M_ret, ret.
    by destruct (convertNumber lit saved).
  - destruct (unquote_string_returns raw w Hu) as (s & _ & Hs).
    eexists _, _. simpl. unfold mbind, M_bind, bind. rewrite Hs.
    by rewrite option_union_None_r.
  - cbn [valueInterface range_error].
    set (elements := fix elements (es : list json) (saved : option error)
           : M (list Value * option error) := _).
    set (errs := fix elements (es : list json) : option error := _).
    assert (∀ saved w, ∃ vs w',
               elements es saved w = (Ret (vs, saved ∪ errs es), w')) as H.
    { clear saved w. simpl in Hu.
      induction IH as [|e es He _ IHes]; intros saved w.
      - eexists _, _. simpl. by rewrite option_union_None_r.
      - destruct Hu as [Hu1 Hu2].
        destruct (He Hu1 saved w) as (v & w1 & Hv).
        destruct (IHes Hu2 (saved ∪ range_error e) w1) as (vs & w2 & Hvs).
        eexists _, _. cbn [elements errs]. unfold mbind, M_bind, bind.
        rewrite Hv. fold elements. rewrite Hvs. unfold mret, M_ret, ret.
        by rewrite option_union_assoc. }
    destruct (H saved w) as (vs & w' & Hvs).
    eexists _, _. unfold mbind, M_bind, bind. by rewrite Hvs.
  - cbn [valueInterface range_error].
    unfold mbind, M_bind, bind, make_map. cbv zeta.
    set (l := fresh (dom (heap w))). set (w0 := World _ _).
    clearbody l w0. clear w.
    set (members := fix members (ms : list (list byte * json))
                      (saved : option error) : M (option error) := _).
    set (errs := fix members (ms : list (list byte * json))
                   : option error := _).
    assert (∀ saved w, ∃ w',
               members ms saved w = (Ret (saved ∪ errs ms), w')) as H.
    { clear saved w0. simpl in Hu.
      induction IH as [|[k e] ms He _ IHms]; intros saved w.
      - eexists. simpl. by rewrite option_union_None_r.
      - destruct Hu as (Hk & Hu1 & Hu2). simpl in He.
        destruct (unquote_string_returns k w Hk) as (s & _ & Hs).
        destruct (He Hu1 saved w) as (v & w1 & Hv).
        cbn [members errs].
        rewrite Hs, Hv. fold members. cbn [assign].
        match goal with |- context [members ms _ ?w2] =>
          destruct (IHms Hu2 (saved ∪ range_error e) w2) as (w3 & Hw3) end.
        eexists. rewrite Hw3. by rewrite option_union_assoc. }
    destruct (H saved w0) as (w' & Hw').
    eexists _, _. rewrite Hw'. done.
Qed.

End Decode.

Section LoadsOutcome.
Import Json Decoded.

Lemma object_returns l ms :
  unquotable (JObject ms) →
  ∀ saved w, ∃ w',
    object (MapRef l) ms saved w
    = (Ret (saved ∪ range_error (JObject ms)), w').
Proof.
  induction ms as [|[k e] ms IH]; intros Hu saved w.
  - eexists. simpl. by rewrite option_union_None_r.
  - destruct Hu as (Hk & Hu1 & Hu2).
    destruct (unquote_string_returns k w Hk) as (s & _ & Hs).
    destruct (valueInterface_returns e Hu1 saved w) as (v & w1 & Hv).
    cbn [object]. unfold mbind, M_bind, bind. rewrite Hs, Hv.
    cbn [assign].
    match goal with |- context [object _ ms _ ?w2] =>
      destruct (IH Hu2 (saved ∪ range_error e) w2) as (w3 & Hw3) end.
    eexists. rewrite Hw3. cbn [range_error].
    by rewrite option_union_assoc.
Qed.

(** C6 (amended): [Loads] always returns.  The error is a syntax error
    exactly when the text does not pass the syntax check, and a type
    error when it does and its value is a boolean, a number, a string or
    an array; the text [null] is accepted and gives the nil store with a
    nil error; an object gives an allocated store, with the range error
    of its first number beyond [float64], and a nil error when there is
    none. *)
Theorem Loads_outcome data w :
  match checkValid data with
  | None => Loads data w = (Ret (NilMap, Some SyntaxError), w)
  | Some JNull => Loads data w = (Ret (NilMap, None), w)
  | Some (JObject ms) =>
      ∃ l w', Loads data w = (Ret (MapRef l, range_error (JObject ms)), w')
  | Some _ =>
      ∃ what, Loads data w = (Ret (NilMap, Some (UnmarshalTypeError what)), w)
  end.
Proof.
  unfold Loads, Unmarshal.
  destruct (checkValid data) as [t|] eqn:Hc; [|done].
  apply checkValid_unquotable in Hc.
  destruct t as [| | |lit|raw|es|ms]; try by eexists.
  - destruct (unquote_string_returns raw w Hc) as (s & _ & Hs).
    eexists. unfold mbind, M_bind, bind. by rewrite Hs.
  - unfold mbind, M_bind, bind, make_map. cbv zeta.
    match goal with |- context [object (MapRef ?l) ms None ?w0] =>
      destruct (object_returns l ms Hc None w0) as (w' & Hw');
      exists l, w'; rewrite Hw' end.
    by destruct (range_error (JObject ms)).
Qed.

(** C6, as the specification has it, fails: the text [null] is valid, its
    value is not an object, and [Loads] does not reject it. *)
Lemma Loads_null_is_not_rejected :
  (¬ ∃ ms, checkValid (text "null") = Some (JObject ms)) ∧
  Loads (text "null") init = (Ret (NilMap, None), init) ∧
  ¬ returns_error (Loads (text "null") init).
Proof.
  split; [by intros [ms H]; vm_compute in H|].
  split; [reflexivity|].
  intros (a & e & H). by vm_compute in H.
Qed.

End LoadsOutcome.

(** ** C9: readers leave the tables alone *)

Section Frame.

Lemma preserves_ret {A} (a : A) : preserves (mret a : M A).
Proof. by intros w r. Qed.

Lemma preserves_throw {A} p : preserves (throw p : M A).
Proof. by intros w r. Qed.

Lemma preserves_bind {A B} (m : M A) (k : A → M B) :
  preserves m → (∀ a, preserves (k a)) → preserves (m ≫= k).
Proof.
  intros Hm Hk w r. unfold mbind, M_bind, bind.
  specialize (Hm w r). destruct (m w) as [[a|p|n] w1]; simpl in *; [|done..].
  by rewrite Hk.
Qed.

Lemma preserves_index c key : preserves (index c key).
Proof. intros w r. unfold index. by destruct (_ !! key). Qed.

Lemma preserves_log lv format args : preserves (log_emit lv format args).
Proof. by intros w r. Qed.

Lemma preserves_exit {A} n : preserves (os_Exit n : M A).
Proof. by intros w r. Qed.

Lemma preserves_make_map : preserves make_map.
Proof.
  intros w [|l]; [done|]. simpl.
  destruct (decide (l = fresh (dom (heap w)))) as [->|Hne].
  - rewrite lookup_insert_eq. simpl.
    by rewrite (proj1 (not_elem_of_dom (heap w) _) (is_fresh _)).
  - by rewrite lookup_insert_ne.
Qed.

Lemma preserves_assert_string v : preserves (assert_string v).
Proof. destruct v; apply preserves_ret || apply preserves_throw. Qed.
Lemma preserves_assert_float64 v : preserves (assert_float64 v).
Proof. destruct v; apply preserves_ret || apply preserves_throw. Qed.
Lemma preserves_assert_int64 v : preserves (assert_int64 v).
Proof. destruct v; apply preserves_ret || apply preserves_throw. Qed.
Lemma preserves_assert_uint64 v : preserves (assert_uint64 v).
Proof. destruct v; apply preserves_ret || apply preserves_throw. Qed.
Lemma preserves_assert_slice v : preserves (assert_slice v).
Proof. destruct v; apply preserves_ret || apply preserves_throw. Qed.
Lemma preserves_assert_map v : preserves (assert_map v).
Proof. destruct v; apply preserves_ret || apply preserves_throw. Qed.

Lemma preserves_collect {A} (assert : Value → M A) val out :
  (∀ v, preserves (assert v)) → preserves (collect assert val out).
Proof.
  intros Ha. revert out. induction val as [|e val IH]; intros out; simpl.
  - apply preserves_ret.
  - apply preserves_bind; [done|]. intros x. apply IH.
Qed.

Lemma preserves_for_each {A} (body : A → M unit) l :
  (∀ x, preserves (body x)) → preserves (for_each body l).
Proof.
  intros Hb. induction l as [|x l IH]; simpl.
  - apply preserves_ret.
  - apply preserves_bind; [done|]. by intros _.
Qed.

Create HintDb frame.
Hint Resolve preserves_ret preserves_throw preserves_index preserves_log
  preserves_exit preserves_make_map preserves_assert_string
  preserves_assert_float64 preserves_assert_int64 preserves_assert_uint64
  preserves_assert_slice preserves_assert_map : frame.

Ltac frame :=
  repeat first
    [ apply preserves_bind; [|intros ?]
    | apply preserves_collect; intros ?
    | match goal with
      | |- preserves (match ?x with _ => _ end) => destruct x
      | |- preserves (if ?x then _ else _) => destruct x
      | |- preserves (let '(_, _) := ?x in _) => destruct x
      end
    | solve [auto with frame] ].

Lemma preserves_Get c key : preserves (Get c key).
Proof. unfold Get. frame. Qed.

Lemma preserves_GetRequired c key : preserves (GetRequired c key).
Proof.
  unfold GetRequired. apply preserves_bind; [apply preserves_Get|].
  intros [val [e|]]; [|apply preserves_ret].
  apply preserves_bind; [apply preserves_log|]. intros _. apply preserves_exit.
Qed.

Lemma preserves_Marshal c : preserves (Json.Marshal c).
Proof. intros w r. unfold Json.Marshal. by destruct (Json.encode _ _ _). Qed.

Lemma preserves_Debug c : preserves (Debug c).
Proof.
  intros w r. unfold Debug.
  apply (preserves_for_each _ (map_to_list (entries (heap w) c))).
  intros kv. apply preserves_log.
Qed.

(** C9: every reader ([Get], [GetString], [GetInt64], [GetUint64],
    [GetSubConfig], the [GetRequired*] family, [Dumps], [Debug]) leaves the
    entries of every table as they were, however the call ends.  [Set(k, v)]
    on an allocated store makes [k] hold [v] and changes nothing else:
    the other keys of the store and all other tables keep their entries
    (on the nil store it panics and changes nothing at all). *)
Theorem readers_preserve_Set_writes_one_key c key :
  preserves (Get c key) ∧ preserves (GetString c key) ∧
  preserves (GetInt64 c key) ∧ preserves (GetUint64 c key) ∧
  preserves (GetSubConfig c key) ∧ preserves (GetRequired c key) ∧
  preserves (GetRequiredSubConfig c key) ∧
  preserves (GetRequiredString c key) ∧
  preserves (GetRequiredInt64 c key) ∧ preserves (GetRequiredUint64 c key) ∧
  preserves (GetRequiredStringSlice c key) ∧
  preserves (GetRequiredUint64Slice c key) ∧
  preserves (GetRequiredInt64Slice c key) ∧
  preserves (Dumps c) ∧ preserves (Debug c) ∧
  ∀ v w,
    (∀ r, r ≠ c →
          entries (heap (Set_ c key v w).2) r = entries (heap w) r) ∧
    (∀ k, k ≠ key →
          entries (heap (Set_ c key v w).2) c !! k
          = entries (heap w) c !! k) ∧
    (c ≠ NilMap →
     (Set_ c key v w).1 = Ret () ∧
     entries (heap (Set_ c key v w).2) c !! key = Some v) ∧
    (c = NilMap → Set_ c key v w = (Panic NilMapAssignment, w)).
Proof.
  pose proof (preserves_Get c key).
  pose proof (preserves_GetRequired c key).
  repeat split.
  - done.
  - unfold GetString. frame.
  - unfold GetInt64. frame.
  - unfold GetUint64. frame.
  - unfold GetSubConfig. frame; done.
  - done.
  - unfold GetRequiredSubConfig. frame; done.
  - unfold GetRequiredString. frame; done.
  - unfold GetRequiredInt64. frame; done.
  - unfold GetRequiredUint64. frame; done.
  - unfold GetRequiredStringSlice. frame; done.
  - unfold GetRequiredUint64Slice. frame; done.
  - unfold GetRequiredInt64Slice. frame; done.
  - apply preserves_Marshal.
  - apply preserves_Debug.
  - intros r Hr. destruct c as [|l]; [done|]. destruct r as [|l']; [done|].
    simpl. rewrite lookup_insert_ne; [done|congruence].
  - intros k Hk. destruct c as [|l]; [done|]. simpl.
    rewrite lookup_insert_eq. simpl. by rewrite lookup_insert_ne.
  - by destruct c.
  - destruct c as [|l]; [done|]. simpl.
    rewrite lookup_insert_eq. simpl. by rewrite lookup_insert_eq.
  - by intros ->.
Qed.

Lemma readers_preserve_Set_writes_one_key_witness :
  entries (heap (Set_ (MapRef 1) "k" (VString "v")
                   (World {[1%positive := {["other" := VNil]}]} [])).2)
          (MapRef 1) !! "other"
  = Some VNil.
Proof.
  pose proof (readers_preserve_Set_writes_one_key (MapRef 1) "k") as H.
  do 15 apply proj2 in H.
  destruct (H (VString "v") (World {[1%positive := {["other" := VNil]}]} []))
    as (_ & Hk & _).
  rewrite (Hk "other"); [reflexivity | discriminate].
Defined.

End Frame.

(** * Further properties of the accessors *)

Section Accessors.

Implicit Types (w : world) (c : Config) (key : string) (v : Value).

(** The optional typed accessors return an error value exactly on an
    absent key, and then it is [ErrNoSuchKey] beside the zero value, with
    the world untouched. *)
Theorem optional_accessors_error_iff_absent w c key :
  (entries (heap w) c !! key = None →
   GetString c key w = (Ret ("", Some ErrNoSuchKey), w) ∧
   GetInt64 c key w = (Ret (0, Some ErrNoSuchKey), w) ∧
   GetUint64 c key w = (Ret (0, Some ErrNoSuchKey), w)) ∧
  (returns_error (GetString c key w) → entries (heap w) c !! key = None) ∧
  (returns_error (GetInt64 c key w) → entries (heap w) c !! key = None) ∧
  (returns_error (GetUint64 c key w) → entries (heap w) c !! key = None).
Proof.
  split; [intros H; repeat split; step; by rewrite H|].
  repeat split; intros (a & e & H); revert H; step;
    (destruct (entries (heap w) c !! key) as [v|]; [|done]);
    by destruct v.
Qed.

Lemma optional_accessors_error_iff_absent_witness :
  GetString NilMap "host" init = (Ret ("", Some ErrNoSuchKey), init).
Proof.
  exact (proj1 (proj1 (optional_accessors_error_iff_absent init NilMap "host")
                  eq_refl)).
Defined.

Lemma pure_ret {A} (a : A) : pure (mret a : M A).
Proof. intros w. left. by exists a. Qed.

Lemma pure_throw {A} p : pure (throw p : M A).
Proof. intros w. right. by exists p. Qed.

Lemma pure_bind {A B} (m : M A) (k : A → M B) :
  pure m → (∀ a, pure (k a)) → pure (m ≫= k).
Proof.
  intros Hm Hk w. unfold mbind, M_bind, bind.
  destruct (Hm w) as [[a ->]|[p ->]]; [apply Hk|].
  right. by exists p.
Qed.

Lemma pure_assert_string v : pure (assert_string v).
Proof. destruct v; apply pure_ret || apply pure_throw. Qed.
Lemma pure_assert_float64 v : pure (assert_float64 v).
Proof. destruct v; apply pure_ret || apply pure_throw. Qed.
Lemma pure_assert_int64 v : pure (assert_int64 v).
Proof. destruct v; apply pure_ret || apply pure_throw. Qed.
Lemma pure_assert_uint64 v : pure (assert_uint64 v).
Proof. destruct v; apply pure_ret || apply pure_throw. Qed.
Lemma pure_assert_slice v : pure (assert_slice v).
Proof. destruct v; apply pure_ret || apply pure_throw. Qed.
Lemma pure_assert_map v : pure (assert_map v).
Proof. destruct v; apply pure_ret || apply pure_throw. Qed.

Lemma pure_collect {A} (assert : Value → M A) val out :
  (∀ v, pure (assert v)) → pure (collect assert val out).
Proof.
  intros Ha. revert out. induction val as [|e val IH]; intros out; simpl.
  - apply pure_ret.
  - apply pure_bind; [done|]. intros x. apply IH.
Qed.

Lemma pure_not_exits {A} (m : M A) w :
  pure m → (m w).2 = w ∧ ¬ exits (m w).
Proof.
  intros Hm. destruct (Hm w) as [[a ->]|[p ->]]; (split; [done|]);
    by intros [n ?].
Qed.

(** After [GetRequired] found the key, what follows is an assertion or a
    loop of assertions. *)
Lemma after_GetRequired {A} (k : Value → M A) w c key v :
  entries (heap w) c !! key = Some v →
  (GetRequired c key ≫= k) w = k v w.
Proof.
  intros H. unfold mbind, M_bind, bind. by rewrite (GetRequired_present _ _ _ _ H).
Qed.

(** When the key is present no required accessor ends the process or
    logs anything: it returns or panics, and the world is as it was.  With
    the exit on an absent key, a required accessor ends the process
    exactly when the key is missing, never for a value of the wrong
    type. *)
Theorem required_accessors_exit_only_on_absent w c key :
  is_Some (entries (heap w) c !! key) →
  ((GetRequired c key w).2 = w ∧ ¬ exits (GetRequired c key w)) ∧
  ((GetRequiredSubConfig c key w).2 = w
   ∧ ¬ exits (GetRequiredSubConfig c key w)) ∧
  ((GetRequiredString c key w).2 = w
   ∧ ¬ exits (GetRequiredString c key w)) ∧
  ((GetRequiredInt64 c key w).2 = w ∧ ¬ exits (GetRequiredInt64 c key w)) ∧
  ((GetRequiredUint64 c key w).2 = w
   ∧ ¬ exits (GetRequiredUint64 c key w)) ∧
  ((GetRequiredStringSlice c key w).2 = w
   ∧ ¬ exits (GetRequiredStringSlice c key w)) ∧
  ((GetRequiredUint64Slice c key w).2 = w
   ∧ ¬ exits (GetRequiredUint64Slice c key w)) ∧
  ((GetRequiredInt64Slice c key w).2 = w
   ∧ ¬ exits (GetRequiredInt64Slice c key w)).
Proof.
  intros [v H].
  split. { rewrite (GetRequired_present _ _ _ _ H). split; [done|]. by intros [n ?]. }
  unfold GetRequiredSubConfig, GetRequiredString, GetRequiredInt64,
    GetRequiredUint64, GetRequiredStringSlice, GetRequiredUint64Slice,
    GetRequiredInt64Slice.
  rewrite !(after_GetRequired _ _ _ _ _ H).
  repeat split_and;
    (apply (λ Hp, proj1 (pure_not_exits _ w Hp))
     || apply (λ Hp, proj2 (pure_not_exits _ w Hp)));
    repeat first
      [ apply pure_assert_map | apply pure_assert_string
      | apply pure_assert_int64 | apply pure_assert_uint64
      | apply pure_assert_float64 | apply pure_assert_slice
      | apply pure_ret
      | apply pure_collect; intros ?
      | apply pure_bind; [|intros ?]
      | match goal with |- pure (match ?x with _ => _ end) => destruct x end ].
Qed.

Lemma required_accessors_exit_only_on_absent_witness :
  (GetRequiredString (MapRef 1) "n"
     (World {[1%positive := {["n" := VBool true]}]} [])).2
  = World {[1%positive := {["n" := VBool true]}]} []
  ∧ ¬ exits (GetRequiredString (MapRef 1) "n"
               (World {[1%positive := {["n" := VBool true]}]} [])).
Proof.
  assert (H : is_Some
                (entries (heap (World {[1%positive := {["n" := VBool true]}]} []))
                   (MapRef 1) !! "n")) by (by exists (VBool true)).
  exact (proj1 (proj2 (proj2 (required_accessors_exit_only_on_absent _ _ _ H)))).
Defined.

End Accessors.

Section Integers.

Implicit Types (w : world) (c : Config) (key : string) (v : Value).

(** [GetRequiredInt64] returns a stored [int64] as it is and converts a
    stored [float64]; on any other value, a [uint64] included, it panics
    on the assertion to [float64].  [GetRequiredUint64] is the same with
    [uint64] for [int64]. *)
Theorem required_integers_by_type w c key v :
  entries (heap w) c !! key = Some v →
  (∀ n, v = VInt64 n → GetRequiredInt64 c key w = (Ret n, w)) ∧
  (∀ f, v = VFloat64 f →
        GetRequiredInt64 c key w = (Ret (Float64.to_int64 f), w)) ∧
  (type_of v ≠ TInt64 → type_of v ≠ TFloat64 →
   GetRequiredInt64 c key w
   = (Panic (TypeAssertionError (type_of v) TFloat64), w)) ∧
  (∀ n, v = VUint64 n → GetRequiredUint64 c key w = (Ret n, w)) ∧
  (∀ f, v = VFloat64 f →
        GetRequiredUint64 c key w = (Ret (Float64.to_uint64 f), w)) ∧
  (type_of v ≠ TUint64 → type_of v ≠ TFloat64 →
   GetRequiredUint64 c key w
   = (Panic (TypeAssertionError (type_of v) TFloat64), w)).
Proof.
  intros H. unfold GetRequiredInt64, GetRequiredUint64.
  rewrite !(after_GetRequired _ _ _ _ _ H).
  repeat split; try (by intros ? ->); by destruct v.
Qed.

Lemma required_integers_by_type_witness :
  GetRequiredInt64 (MapRef 1) "n"
    (World {[1%positive := {["n" := VUint64 7]}]} [])
  = (Panic (TypeAssertionError TUint64 TFloat64),
     World {[1%positive := {["n" := VUint64 7]}]} []).
Proof.
  assert (H : entries (heap (World {[1%positive := {["n" := VUint64 7]}]} []))
                (MapRef 1) !! "n" = Some (VUint64 7)) by reflexivity.
  apply (required_integers_by_type _ _ _ _ H); discriminate.
Defined.

(** An integer stored natively with [Set] is returned by the required
    accessor of its type but makes the optional accessor panic, which
    asserts [float64] only. *)
Theorem native_integer_after_Set w l key n :
  ∃ w',
    Set_ (MapRef l) key (VInt64 n) w = (Ret (), w') ∧
    GetRequiredInt64 (MapRef l) key w' = (Ret n, w') ∧
    GetInt64 (MapRef l) key w'
    = (Panic (TypeAssertionError TInt64 TFloat64), w') ∧
    ∃ w'',
      Set_ (MapRef l) key (VUint64 n) w = (Ret (), w'') ∧
      GetRequiredUint64 (MapRef l) key w'' = (Ret n, w'') ∧
      GetUint64 (MapRef l) key w''
      = (Panic (TypeAssertionError TUint64 TFloat64), w'').
Proof.
  assert (Hl : ∀ v,
             entries (<[l := <[key := v]> (entries (heap w) (MapRef l))]>
                        (heap w)) (MapRef l) !! key = Some v).
  { intros v. simpl. rewrite lookup_insert_eq. simpl.
    by rewrite lookup_insert_eq. }
  eexists. split; [apply Set_allocated|].
  split; [step; cbn [heap]; by rewrite Hl|].
  split; [step; cbn [heap]; by rewrite Hl|].
  eexists. split; [apply Set_allocated|].
  split; step; cbn [heap]; by rewrite Hl.
Qed.

End Integers.

Section Slices.

Implicit Types (w : world) (c : Config) (key : string) (v : Value).

Lemma collect_strings_inv es out r w w' :
  collect assert_string es out w = (Ret r, w') →
  ∃ ss, es = VString <$> ss ∧ r = out ++ ss.
Proof.
  revert out. induction es as [|e es IH]; intros out; simpl.
  - intros [= <- _]. exists []. by rewrite app_nil_r.
  - step. destruct e; try done. simpl. fold (@collect string).
    intros (ss & -> & ->)%IH. exists (s :: ss).
    by rewrite <- app_assoc.
Qed.

Lemma collect_int64s_inv es out r w w' :
  collect assert_int64 es out w = (Ret r, w') →
  ∃ ns, es = VInt64 <$> ns ∧ r = out ++ ns.
Proof.
  revert out. induction es as [|e es IH]; intros out; simpl.
  - intros [= <- _]. exists []. by rewrite app_nil_r.
  - step. destruct e; try done. simpl. fold (@collect Z).
    intros (ns & -> & ->)%IH. exists (n :: ns).
    by rewrite <- app_assoc.
Qed.

Lemma collect_uint64s_inv es out r w w' :
  collect assert_uint64 es out w = (Ret r, w') →
  ∃ ns, es = VUint64 <$> ns ∧ r = out ++ ns.
Proof.
  revert out. induction es as [|e es IH]; intros out; simpl.
  - intros [= <- _]. exists []. by rewrite app_nil_r.
  - step. destruct e; try done. simpl. fold (@collect Z).
    intros (ns & -> & ->)%IH. exists (n :: ns).
    by rewrite <- app_assoc.
Qed.

(** On a key holding a slice, a required slice accessor returns a list
    exactly when every element has the asserted type, and the list is
    then the elements in order: strings for [GetRequiredStringSlice],
    [int64] for [GetRequiredInt64Slice], [uint64] for
    [GetRequiredUint64Slice]. *)
Theorem slice_accessors_return_iff w c key es :
  entries (heap w) c !! key = Some (VSlice es) →
  (∀ ss, GetRequiredStringSlice c key w = (Ret ss, w)
         ↔ es = VString <$> ss) ∧
  (∀ ns, GetRequiredInt64Slice c key w = (Ret ns, w)
         ↔ es = VInt64 <$> ns) ∧
  (∀ ns, GetRequiredUint64Slice c key w = (Ret ns, w)
         ↔ es = VUint64 <$> ns).
Proof.
  intros H.
  unfold GetRequiredStringSlice, GetRequiredInt64Slice,
    GetRequiredUint64Slice.
  rewrite !(after_GetRequired _ _ _ _ _ H).
  unfold mbind, M_bind, bind. simpl.
  repeat split.
  - by intros (ss' & -> & ->)%collect_strings_inv.
  - intros ->. apply (collect_strings ss []).
  - by intros (ns' & -> & ->)%collect_int64s_inv.
  - intros ->. apply (collect_int64s ns []).
  - by intros (ns' & -> & ->)%collect_uint64s_inv.
  - intros ->. apply (collect_uint64s ns []).
Qed.

Lemma slice_accessors_return_iff_witness :
  GetRequiredStringSlice (MapRef 1) "arr" (loaded "{'arr':['a','b']}").2
  = (Ret ["a"; "b"], (loaded "{'arr':['a','b']}").2).
Proof.
  assert (H : entries (heap (loaded "{'arr':['a','b']}").2) (MapRef 1)
              !! "arr" = Some (VSlice [VString "a"; VString "b"]))
    by (vm_compute; reflexivity).
  apply (proj1 (slice_accessors_return_iff _ _ _ _ H)). reflexivity.
Defined.

(** On a present key whose value is not a slice (the nil of a JSON
    [null] included) the three slice accessors panic on the assertion to
    [[]interface{}]. *)
Theorem slice_accessors_on_non_slice w c key v :
  entries (heap w) c !! key = Some v → type_of v ≠ TSlice →
  GetRequiredStringSlice c key w
  = (Panic (TypeAssertionError (type_of v) TSlice), w) ∧
  GetRequiredInt64Slice c key w
  = (Panic (TypeAssertionError (type_of v) TSlice), w) ∧
  GetRequiredUint64Slice c key w
  = (Panic (TypeAssertionError (type_of v) TSlice), w).
Proof.
  intros H Ht.
  unfold GetRequiredStringSlice, GetRequiredInt64Slice,
    GetRequiredUint64Slice.
  rewrite !(after_GetRequired _ _ _ _ _ H).
  unfold mbind, M_bind, bind. by destruct v.
Qed.

Lemma slice_accessors_on_non_slice_witness :
  GetRequiredStringSlice (MapRef 1) "arr" (loaded "{'arr':null}").2
  = (Panic (TypeAssertionError TNil TSlice), (loaded "{'arr':null}").2).
Proof.
  assert (H : entries (heap (loaded "{'arr':null}").2) (MapRef 1)
              !! "arr" = Some VNil) by (vm_compute; reflexivity).
  apply (slice_accessors_on_non_slice _ _ _ _ H). discriminate.
Defined.

End Slices.

Section SetAlgebra.

Implicit Types (w : world) (c : Config) (key : string) (v : Value).

(** The second of two [Set] calls on one key wins: the world is the one
    the second call alone would leave.  [Set] calls on different keys
    commute. *)
Theorem Set_overwrites_and_commutes w c k1 k2 v1 v2 :
  (Set_ c k1 v1;; Set_ c k1 v2) w = Set_ c k1 v2 w ∧
  (k1 ≠ k2 →
   (Set_ c k1 v1;; Set_ c k2 v2) w = (Set_ c k2 v2;; Set_ c k1 v1) w).
Proof.
  destruct c as [|l]; [done|]. split.
  - step. simpl. rewrite lookup_insert_eq. simpl.
    by rewrite !insert_insert_eq.
  - intros Hk. step. simpl. rewrite !lookup_insert_eq. simpl.
    rewrite !insert_insert_eq. by rewrite (insert_insert_ne _ k1 k2).
Qed.

Lemma Set_overwrites_and_commutes_witness :
  (Set_ (MapRef 1) "a" VNil;; Set_ (MapRef 1) "b" (VBool true)) init
  = (Set_ (MapRef 1) "b" (VBool true);; Set_ (MapRef 1) "a" VNil) init.
Proof.
  apply (Set_overwrites_and_commutes init (MapRef 1) "a" "b"). discriminate.
Defined.

End SetAlgebra.

Section SubConfig.

Implicit Types (w : world) (c : Config) (key : string) (v : Value).

(** The [Config] that [GetSubConfig] returns is the table the parent
    holds, not a copy: after a [Set] through it, asking the parent for the
    sub-configuration again and reading the key back gives the value
    written (unless that very [Set] replaced the parent's entry). *)
Theorem write_through_SubConfig_is_seen_by_parent w c key l k v :
  entries (heap w) c !! key = Some (VMap (MapRef l)) →
  MapRef l ≠ c ∨ k ≠ key →
  ∃ w',
    Set_ (MapRef l) k v w = (Ret (), w') ∧
    ('(sub, _) ← GetSubConfig c key;
     (Set_ sub k v;;
      ('(sub', _) ← GetSubConfig c key;
       Get sub' k))) w = (Ret (v, None), w').
Proof.
  intros H Hne. eexists. split; [apply Set_allocated|].
  step. rewrite H. simpl.
  assert (entries
            (<[l:=<[k:=v]> (default ∅ (heap w !! l))]> (heap w)) c !! key
          = Some (VMap (MapRef l))) as H'.
  { destruct c as [|l']; [done|]. simpl in *.
    destruct (decide (l' = l)) as [->|Hl].
    - rewrite lookup_insert_eq. simpl.
      rewrite lookup_insert_ne; [done|]. by destruct Hne.
    - by rewrite lookup_insert_ne. }
  rewrite H'. simpl. rewrite lookup_insert_eq. simpl.
  by rewrite lookup_insert_eq.
Qed.

Lemma write_through_SubConfig_is_seen_by_parent_witness :
  ∃ w',
    Set_ (MapRef 2) "a" (VBool true) (loaded "{'x':{'a':1}}").2
    = (Ret (), w') ∧
    ('(sub, _) ← GetSubConfig (MapRef 1) "x";
     (Set_ sub "a" (VBool true);;
      ('(sub', _) ← GetSubConfig (MapRef 1) "x";
       Get sub' "a"))) (loaded "{'x':{'a':1}}").2
    = (Ret (VBool true, None), w').
Proof.
  apply write_through_SubConfig_is_seen_by_parent.
  - vm_compute. reflexivity.
  - left. discriminate.
Defined.

(** On a present key [GetRequiredSubConfig] and [GetSubConfig] end the
    same way: both return the stored table, or both panic with the same
    type-assertion error. *)
Theorem SubConfig_accessors_agree w c key v :
  entries (heap w) c !! key = Some v →
  (∀ r, GetSubConfig c key w = (Ret (r, None), w)
        ↔ GetRequiredSubConfig c key w = (Ret r, w)) ∧
  (∀ p, GetSubConfig c key w = (Panic p, w)
        ↔ GetRequiredSubConfig c key w = (Panic p, w)).
Proof.
  intros H. unfold GetRequiredSubConfig.
  rewrite (after_GetRequired _ _ _ _ _ H).
  step. rewrite H. simpl.
  split; intros x; destruct v; simpl; split; intros [= ->]; done.
Qed.

Lemma SubConfig_accessors_agree_witness :
  GetSubConfig (MapRef 1) "x" (loaded "{'x':{'a':1}}").2
  = (Ret (MapRef 2, None), (loaded "{'x':{'a':1}}").2)
  ↔ GetRequiredSubConfig (MapRef 1) "x" (loaded "{'x':{'a':1}}").2
    = (Ret (MapRef 2), (loaded "{'x':{'a':1}}").2).
Proof.
  assert (H : entries (heap (loaded "{'x':{'a':1}}").2) (MapRef 1) !! "x"
              = Some (VMap (MapRef 2))) by (vm_compute; reflexivity).
  exact (proj1 (SubConfig_accessors_agree _ _ _ _ H) (MapRef 2)).
Defined.

(** The [Config] returned beside [ErrNoSuchKey] is a new empty table:
    it can be written to, and neither its creation nor a [Set] on it
    changes any table that was there before. *)
Theorem SubConfig_of_absent_key_is_fresh w c key k v :
  entries (heap w) c !! key = None →
  ∃ l w' w'',
    GetSubConfig c key w = (Ret (MapRef l, Some ErrNoSuchKey), w') ∧
    (l ∉ dom (heap w)) ∧
    entries (heap w') (MapRef l) = ∅ ∧
    grows w w' ∧
    Set_ (MapRef l) k v w' = (Ret (), w'') ∧
    grows w w''.
Proof.
  intros H. pose proof (is_fresh (dom (heap w))) as Hf.
  set (l := fresh (dom (heap w))) in *.
  assert (∀ h' : gmap string Value,
             ∀ l', l' ∈ dom (heap w) → <[l := h']> (heap w) !! l' = heap w !! l')
    as Hold.
  { intros h' l' Hl'. rewrite lookup_insert_ne; [done|]. by intros <-. }
  eexists l, _, _. split; [step; by rewrite H|].
  split; [done|]. split; [simpl; by rewrite lookup_insert_eq|].
  split; [split; [done|apply Hold]|].
  split; [apply Set_allocated|].
  split; [done|]. intros l' Hl'. simpl. rewrite insert_insert_eq.
  by apply Hold.
Qed.

Lemma SubConfig_of_absent_key_is_fresh_witness :
  ∃ l w' w'',
    GetSubConfig NilMap "x" init = (Ret (MapRef l, Some ErrNoSuchKey), w') ∧
    (l ∉ dom (heap init)) ∧
    entries (heap w') (MapRef l) = ∅ ∧
    grows init w' ∧
    Set_ (MapRef l) "k" VNil w' = (Ret (), w'') ∧
    grows init w''.
Proof. apply SubConfig_of_absent_key_is_fresh. reflexivity. Defined.

End SubConfig.

Section DebugLines.

Implicit Types (w : world) (c : Config) (key : string) (v : Value).

Lemma for_each_log l w :
  for_each (λ kv, log_Debugf "config[%s] = %v" [VString kv.1; kv.2]) l w
  = (Ret (), World (heap w) (sink w ++ (debug_line <$> l))).
Proof.
  revert w. induction l as [|kv l IH]; intros w; simpl.
  - rewrite app_nil_r. by destruct w.
  - transitivity
      (for_each (λ kv, log_Debugf "config[%s] = %v" [VString kv.1; kv.2]) l
         (World (heap w) (sink w ++ [debug_line kv]))); [done|].
    rewrite IH. simpl. by rewrite <- app_assoc.
Qed.

(** [Debug] returns normally, leaves the tables alone and appends to the
    log one debug entry per entry of the store: as many lines as the
    store has keys, and a line for a key and a value exactly when the
    store holds that value under that key.  On the nil or an empty store
    it logs nothing. *)
Theorem Debug_logs_each_entry w c :
  ∃ lines,
    Debug c w = (Ret (), World (heap w) (sink w ++ lines)) ∧
    length lines = size (entries (heap w) c) ∧
    (∀ key v, debug_line (key, v) ∈ lines
              ↔ entries (heap w) c !! key = Some v) ∧
    (entries (heap w) c = ∅ → lines = []).
Proof.
  exists (debug_line <$> map_to_list (entries (heap w) c)).
  split; [apply for_each_log|].
  split; [by rewrite length_fmap, length_map_to_list|].
  split.
  - intros key v. rewrite <- elem_of_map_to_list. split.
    + intros ([k v'] & [= -> ->] & H)%list_elem_of_fmap. done.
    + intros H. apply list_elem_of_fmap. by exists (key, v).
  - intros ->. by rewrite map_to_list_empty.
Qed.

End DebugLines.

Section LoadsFrame.
Import Json.

Implicit Types (w : world) (c : Config) (key : string) (v : Value).

Lemma grows_refl w : grows w w.
Proof. by split. Qed.

Lemma grows_dom w w' l : grows w w' → l ∈ dom (heap w) → l ∈ dom (heap w').
Proof.
  intros [_ H] Hl. apply elem_of_dom. rewrite (H l Hl). by apply elem_of_dom.
Qed.

Lemma grows_trans w1 w2 w3 : grows w1 w2 → grows w2 w3 → grows w1 w3.
Proof.
  intros H12 H23. split.
  - etrans; [apply H23|apply H12].
  - intros l Hl. rewrite <- (proj2 H12 l Hl).
    apply (proj2 H23). by eapply grows_dom.
Qed.

Lemma grows_make_map w : grows w (make_map w).2.
Proof.
  split; [done|]. intros l Hl. simpl. rewrite lookup_insert_ne; [done|].
  intros <-. by apply (is_fresh (dom (heap w))).
Qed.

(** An assignment into a table that [w0] does not have keeps [w0]. *)
Lemma grows_assign w0 w l k v :
  l ∉ dom (heap w0) → grows w0 w → grows w0 (assign (MapRef l) k v w).2.
Proof.
  intros Hl [Hs Hh]. split; [done|]. intros l' Hl'. simpl.
  rewrite lookup_insert_ne; [by apply Hh|]. by intros <-.
Qed.

Lemma grows_unquote_string raw w : (unquote_string raw w).2 = w.
Proof. unfold unquote_string. by destruct (unquote raw). Qed.

Lemma json_shaped_convertNumber lit saved :
  json_shaped (convertNumber lit saved).1.
Proof. unfold convertNumber. by destruct (Strconv.ParseFloat lit). Qed.

(** Decoding a value only adds tables, and what it returns is of the
    shapes of JSON. *)
Lemma valueInterface_grows t :
  ∀ saved w,
    grows w (valueInterface t saved w).2 ∧
    ∀ v s, (valueInterface t saved w).1 = Ret (v, s) → json_shaped v.
Proof.
  induction t as [| | |lit|raw|es IH|ms IH] using json_nested_ind;
    intros saved w.
  - split; [apply grows_refl|]. by intros v s [= <- _].
  - split; [apply grows_refl|]. by intros v s [= <- _].
  - split; [apply grows_refl|]. by intros v s [= <- _].
  - split; [apply grows_refl|]. cbn [valueInterface]. intros v s.
    unfold mret, M_ret, ret. simpl.
    pose proof (json_shaped_convertNumber lit saved).
    destruct (convertNumber lit saved). by intros [= <- _].
  - cbn [valueInterface]. unfold mbind, M_bind, bind, unquote_string.
    destruct (unquote raw); simpl; (split; [apply grows_refl|]); [|done].
    by intros v s [= <- _].
  - cbn [valueInterface]. unfold mbind, M_bind, bind.
    set (elements := fix elements (es : list json) (saved : option error)
           : M (list Value * option error) := _).
    assert (∀ saved w,
               grows w (elements es saved w).2 ∧
               ∀ vs s, (elements es saved w).1 = Ret (vs, s) →
                       json_shaped (VSlice vs)) as H.
    { clear saved w. induction IH as [|e es He _ IHes]; intros saved w.
      - split; [apply grows_refl|]. by intros vs s [= <- _].
      - cbn [elements]. destruct (He saved w) as [Hg Hv].
        destruct (valueInterface e saved w) as [[[v s1]|p|n] w1];
          [|done..].
        fold elements. destruct (IHes s1 w1) as [Hg' Hvs].
        destruct (elements es s1 w1) as [[[vs s2]|p|n] w2]; simpl in *.
        + split; [by eapply grows_trans|]. intros vs' s [= <- _].
          split; [by eapply Hv|by eapply Hvs].
        + split; [by eapply grows_trans|done].
        + split; [by eapply grows_trans|done]. }
    destruct (H saved w) as [Hg Hvs].
    destruct (elements es saved w) as [[[vs s2]|p|n] w2]; simpl in *;
      (split; [done|]); [|done..].
    intros v s [= <- _]. by eapply Hvs.
  - cbn [valueInterface]. unfold mbind, M_bind, bind.
    pose proof (grows_make_map w) as Hg0.
    pose proof (is_fresh (dom (heap w))) as Hfresh.
    unfold make_map in *. cbv zeta in *. cbn [snd] in Hg0.
    set (l := fresh (dom (heap w))) in *. set (w0 := World _ _) in *.
    set (members := fix members (ms : list (list byte * json))
                      (saved : option error) : M (option error) := _).
    assert (∀ saved wx, grows w wx → grows w (members ms saved wx).2) as H.
    { clear saved Hg0. clearbody w0.
      induction IH as [|[k e] ms He _ IHms]; intros saved wx Hx; [done|].
      cbn [members]. pose proof (grows_unquote_string k wx) as Hq.
      destruct (unquote_string k wx) as [[key|p|n] wq]; simpl in Hq; subst wq;
        [|done..].
      simpl in He. destruct (He saved wx) as [Hg _].
      destruct (valueInterface e saved wx) as [[[v s1]|p|n] w1];
        simpl in Hg; [|by eapply grows_trans..].
      cbn [assign]. fold members. apply IHms.
      apply (grows_assign w w1 l key v Hfresh). by eapply grows_trans. }
    specialize (H saved w0 Hg0).
    destruct (members ms saved w0) as [[s|p|n] w2]; simpl in *;
      (split; [done|]); [|done..].
    by intros v s' [= <- _].
Qed.

End LoadsFrame.

Section LoadsShape.
Import Json.

Implicit Types (w : world) (c : Config) (key : string) (v : Value).

Lemma object_grows l ms :
  ∀ saved w0 w,
    l ∉ dom (heap w0) → grows w0 w →
    grows w0 (object (MapRef l) ms saved w).2.
Proof.
  induction ms as [|[k e] ms IH]; intros saved w0 w Hl Hg; [done|].
  cbn [object]. unfold mbind, M_bind, bind.
  pose proof (grows_unquote_string k w) as Hq.
  destruct (unquote_string k w) as [[key|p|n] wq]; simpl in Hq; subst wq;
    [|done..].
  destruct (valueInterface_grows e saved w) as [Hg1 _].
  destruct (valueInterface e saved w) as [[[v s1]|p|n] w1];
    simpl in Hg1; [|by eapply grows_trans..].
  cbn [assign]. apply IH; [done|].
  apply grows_assign; [done|]. by eapply grows_trans.
Qed.

Lemma object_shaped l ms :
  ∀ saved w,
    l ∈ dom (heap w) → shaped_table w (MapRef l) →
    shaped_table (object (MapRef l) ms saved w).2 (MapRef l).
Proof.
  induction ms as [|[k e] ms IH]; intros saved w Hl Hs; [done|].
  cbn [object]. unfold mbind, M_bind, bind.
  pose proof (grows_unquote_string k w) as Hq.
  destruct (unquote_string k w) as [[key|p|n] wq]; simpl in Hq; subst wq;
    [|done..].
  destruct (valueInterface_grows e saved w) as [Hg1 Hv].
  assert (∀ w1, grows w w1 → shaped_table w1 (MapRef l)) as Hkeep.
  { intros w1 [_ Hh] key' v' H'. apply (Hs key' v'). simpl in *.
    by rewrite <- (Hh l Hl). }
  destruct (valueInterface e saved w) as [[[v s1]|p|n] w1];
    simpl in Hg1; [|by apply Hkeep..].
  cbn [assign]. apply IH.
  - simpl. apply elem_of_dom. rewrite lookup_insert_eq. by eexists.
  - intros key' v'. simpl. rewrite lookup_insert_eq. simpl.
    destruct (decide (key = key')) as [->|Hne].
    + rewrite lookup_insert_eq. intros [= <-]. by eapply Hv.
    + rewrite lookup_insert_ne by done. apply (Hkeep w1 Hg1 key' v').
Qed.

(** [Loads] only allocates: whatever the text and however the call ends,
    the log and every table that existed are as they were, and a store
    it returns allocated is a new table, shared with nothing that was
    there. *)
Theorem Loads_only_allocates data w :
  grows w (Loads data w).2 ∧
  ∀ l e, (Loads data w).1 = Ret (MapRef l, e) → l ∉ dom (heap w).
Proof.
  unfold Loads, Unmarshal.
  destruct (checkValid data) as [t|]; [|by split; [apply grows_refl|]].
  destruct t as [| | |lit|raw|es|ms];
    try (by split; [apply grows_refl|]).
  - unfold mbind, M_bind, bind, unquote_string.
    destruct (unquote raw); by split; [apply grows_refl|].
  - unfold mbind, M_bind, bind.
    pose proof (grows_make_map w) as Hg0.
    pose proof (is_fresh (dom (heap w))) as Hfresh.
    unfold make_map in *. cbv zeta in *. cbn [snd] in Hg0.
    set (l := fresh (dom (heap w))) in *. set (w0 := World _ _) in *.
    pose proof (object_grows l ms None w w0 Hfresh Hg0) as Hg.
    destruct (object (MapRef l) ms None w0) as [[s|p|n] w2]; simpl in *;
      (split; [done|]); [|done..].
    by intros l' e [= <- _].
Qed.

Lemma Loads_shapes_table data w c e w' :
  Loads data w = (Ret (c, e), w') → shaped_table w' c.
Proof.
  unfold Loads, Unmarshal.
  destruct (checkValid data) as [t|]; [|by intros [= <- _ _]].
  destruct t as [| | |lit|raw|es|ms]; try (by intros [= <- _ _]).
  - unfold mbind, M_bind, bind, unquote_string.
    destruct (unquote raw); [|done]. by intros [= <- _ _].
  - unfold mbind, M_bind, bind, make_map. cbv zeta.
    set (l := fresh (dom (heap w))). set (w0 := World _ _).
    assert (l ∈ dom (heap w0)) as Hl.
    { simpl. apply elem_of_dom. rewrite lookup_insert_eq. by eexists. }
    assert (shaped_table w0 (MapRef l)) as Hs.
    { intros key v. simpl. rewrite lookup_insert_eq. simpl.
      by rewrite lookup_empty. }
    pose proof (object_shaped l ms None w0 Hl Hs) as H.
    destruct (object (MapRef l) ms None w0) as [[s|p|n] w2]; [|done..].
    by intros [= <- _ <-].
Qed.

(** Every value that [Loads] puts into the store it returns is of the
    shapes of JSON: nil, a boolean, a [float64], a string, a slice of such
    values or a map; never an [int64] or a [uint64]. *)
Theorem Loads_values_are_json_shaped data w c e w' key v :
  Loads data w = (Ret (c, e), w') →
  entries (heap w') c !! key = Some v →
  json_shaped v ∧ type_of v ≠ TInt64 ∧ type_of v ≠ TUint64.
Proof.
  intros HL Hk. pose proof (Loads_shapes_table _ _ _ _ _ HL key v Hk).
  by destruct v.
Qed.

Lemma Loads_values_are_json_shaped_witness :
  json_shaped (VSlice [VFloat64 (S754_finite false 4503599627370496 (-52))])
  ∧ type_of (VSlice [VFloat64 (S754_finite false 4503599627370496 (-52))])
    ≠ TInt64
  ∧ type_of (VSlice [VFloat64 (S754_finite false 4503599627370496 (-52))])
    ≠ TUint64.
Proof.
  apply (Loads_values_are_json_shaped (text "{'n':[1]}") init
           (MapRef 1) None (loaded "{'n':[1]}").2 "n");
    vm_compute; reflexivity.
Defined.

(** On a store returned by [Loads] the numeric slice accessors never
    return anything but the empty list: every element of a decoded array
    fails the assertion to [int64] or [uint64]. *)
Theorem numeric_slices_of_loaded_store_are_empty data w c e w' key :
  Loads data w = (Ret (c, e), w') →
  (∀ ns w'', GetRequiredInt64Slice c key w' = (Ret ns, w'') → ns = []) ∧
  (∀ ns w'', GetRequiredUint64Slice c key w' = (Ret ns, w'') → ns = []).
Proof.
  intros HL.
  pose proof (Loads_shapes_table _ _ _ _ _ HL) as Hs.
  unfold GetRequiredInt64Slice, GetRequiredUint64Slice.
  destruct (entries (heap w') c !! key) as [v|] eqn:Hk.
  - rewrite !(after_GetRequired _ _ _ _ _ Hk).
    unfold mbind, M_bind, bind. specialize (Hs key v Hk).
    destruct v as [| | | | | |es| |]; try done. simpl.
    split; intros ns w''.
    + intros (ns' & -> & ->)%collect_int64s_inv.
      destruct ns' as [|n ns']; [done|]. by destruct Hs.
    + intros (ns' & -> & ->)%collect_uint64s_inv.
      destruct ns' as [|n ns']; [done|]. by destruct Hs.
  - unfold mbind, M_bind, bind.
    rewrite (GetRequired_absent _ _ _ Hk). by split.
Qed.

Lemma numeric_slices_of_loaded_store_are_empty_witness :
  (∀ ns w'', GetRequiredInt64Slice (MapRef 1) "n" (loaded "{'n':[]}").2
             = (Ret ns, w'') → ns = []) ∧
  (∀ ns w'', GetRequiredUint64Slice (MapRef 1) "n" (loaded "{'n':[]}").2
             = (Ret ns, w'') → ns = []).
Proof.
  apply (numeric_slices_of_loaded_store_are_empty (text "{'n':[]}") init
           (MapRef 1) None (loaded "{'n':[]}").2 "n").
  vm_compute. reflexivity.
Defined.

End LoadsShape.

Section LoadFile.
Import Json.

Implicit Types (w : world) (c : Config) (key : string) (v : Value).

Lemma Loads_allocated_is_object data w l e w' :
  Loads data w = (Ret (MapRef l, e), w') →
  ∃ ms, checkValid data = Some (JObject ms).
Proof.
  unfold Loads, Unmarshal.
  destruct (checkValid data) as [t|]; [|done].
  destruct t as [| | |lit|raw|es|ms]; try done; [|by exists ms].
  unfold mbind, M_bind, bind, unquote_string. by destruct (unquote raw).
Qed.

(** [Load] on a path that cannot be read returns the nil store and the
    read error and leaves the world alone: nothing is parsed and nothing
    allocated.  On a readable path it returns what [Loads] returns on the
    contents.  So a store that [Load] returns allocated comes from a
    readable file holding a JSON object. *)
Theorem Load_outcome fs path w :
  (fs path = None →
   Load fs path w = (Ret (NilMap, Some (ReadError path)), w)) ∧
  (∀ data c e w',
     fs path = Some data → Loads data w = (Ret (c, e), w') →
     Load fs path w = (Ret (c, DecodeError <$> e), w')) ∧
  (∀ l e w',
     Load fs path w = (Ret (MapRef l, e), w') →
     ∃ data ms, fs path = Some data
                ∧ checkValid data = Some (JObject ms)).
Proof.
  unfold Load. repeat split.
  - by intros ->.
  - intros data c e w' -> HL. unfold mbind, M_bind, bind. by rewrite HL.
  - intros l e w'. destruct (fs path) as [data|]; [|done].
    unfold mbind, M_bind, bind.
    destruct (Loads data w) as [[[c e']|p|n] w1] eqn:HL; [|done..].
    intros [= -> _ <-]. exists data.
    destruct (Loads_allocated_is_object _ _ _ _ _ HL) as [ms Hms].
    by exists ms.
Qed.

Lemma Load_outcome_witness :
  Load (λ _, None) "/etc/app.json" init
  = (Ret (NilMap, Some (ReadError "/etc/app.json")), init).
Proof.
  exact (proj1 (Load_outcome (λ _, None) "/etc/app.json" init) eq_refl).
Defined.

End LoadFile.

Section DumpsFails.
Import Json.

Implicit Types (w : world) (c : Config) (key : string) (v : Value).

Lemma elem_of_sorted_entries (m : gmap string Value) k v :
  (k, v) ∈ sorted_entries m ↔ m !! k = Some v.
Proof.
  unfold sorted_entries. rewrite merge_sort_Permutation.
  apply elem_of_map_to_list.
Qed.

Lemma encode_non_finite fuel h f :
  Float64.is_finite f = false → ∃ e, encode fuel h (VFloat64 f) = Err e.
Proof. destruct fuel, f; try done; intros _; by eexists. Qed.

Lemma encode_table fuel h l :
  encode (S fuel) h (VMap (MapRef l))
  = res_bind (encode_members fuel h (sorted_entries (entries h (MapRef l))))
             (λ bs, Ok ("{"%byte :: join_comma bs ++ ["}"%byte])).
Proof. reflexivity. Qed.

Lemma encode_members_fails fuel h kvs k v e :
  (k, v) ∈ kvs → encode fuel h v = Err e →
  ∃ e', encode_members fuel h kvs = Err e'.
Proof.
  intros Hin He. induction kvs as [|[k' v'] kvs IH]; [by inversion Hin|].
  simpl. destruct (encode fuel h v') as [b|e1] eqn:H1; [|by eexists].
  simpl. apply elem_of_cons in Hin as [[= <- <-]|Hin]; [congruence|].
  destruct (IH Hin) as [e' ->]. by eexists.
Qed.

(** A store that holds a NaN or an infinity under some key cannot be
    dumped: [Dumps] returns an error and no bytes, and the world is as it
    was. *)
Theorem Dumps_fails_on_non_finite w c key f :
  entries (heap w) c !! key = Some (VFloat64 f) →
  Float64.is_finite f = false →
  ∃ e, Dumps c w = (Ret ([], Some e), w).
Proof.
  intros Hk Hf. unfold Dumps, Marshal.
  destruct c as [|l]; [done|].
  assert (∃ e, encode (size (heap w)) (heap w) (VMap (MapRef l)) = Err e)
    as [e ->]; [|by eexists].
  destruct (size (heap w)) as [|fuel]; [by eexists|].
  rewrite encode_table.
  destruct (encode_non_finite fuel (heap w) f Hf) as [e0 He0].
  apply elem_of_sorted_entries in Hk.
  destruct (encode_members_fails _ _ _ _ _ _ Hk He0) as [e' ->].
  by eexists.
Qed.

Lemma Dumps_fails_on_non_finite_witness :
  ∃ e, Dumps (MapRef 1)
         (World {[1%positive := {["x" := VFloat64 S754_nan]}]} [])
       = (Ret ([], Some e),
          World {[1%positive := {["x" := VFloat64 S754_nan]}]} []).
Proof.
  apply (Dumps_fails_on_non_finite _ _ "x" S754_nan); reflexivity.
Defined.

End DumpsFails.

(** ** [Dumps] on a store that [Loads] returned *)

Section DumpsAfterLoads.
Import Json.

Implicit Types (w : world) (c : Config) (key : string) (v : Value).
Implicit Types (h : gmap loc (gmap string Value)).

Lemma encode_slice fuel h es :
  encode fuel h (VSlice es)
  = res_bind (encode_elements fuel h es)
             (λ bs, Ok ("["%byte :: join_comma bs ++ ["]"%byte])).
Proof. destruct fuel; reflexivity. Qed.

Lemma encode_elements_ok fuel h es :
  Forall (encodes fuel h) es → ∃ bss, encode_elements fuel h es = Ok bss.
Proof.
  induction 1 as [|e es [b He] _ [bss IH]]; [by eexists|].
  simpl. rewrite He, IH. by eexists.
Qed.

Lemma encode_members_ok fuel h kvs :
  (∀ k v, (k, v) ∈ kvs → encodes fuel h v) →
  ∃ bss, encode_members fuel h kvs = Ok bss.
Proof.
  induction kvs as [|[k v] kvs IH]; intros H; [by eexists|].
  destruct (H k v) as [b Hb]; [by left|].
  destruct IH as [bss Hbss]; [intros k' v' ?; apply (H k' v'); by right|].
  simpl. rewrite Hb, Hbss. by eexists.
Qed.

Lemma encode_float_finite f :
  Float64.is_finite f = true → ∃ bs, encode_float f = Ok bs.
Proof.
  destruct f as [s| | |s m e]; try done; intros _; [by eexists|].
  simpl. destruct (Strconv.shortest m e) as [k j].
  match goal with |- context [if ?b then _ else _] => destruct b end;
    by eexists.
Qed.

Lemma grows_subseteq w w' : grows w w' → dom (heap w) ⊆ dom (heap w').
Proof. intros H l. by apply grows_dom. Qed.

Lemma new_tables_mono wa wb w w' :
  dom (heap w) ⊆ dom (heap wa) → dom (heap wb) ⊆ dom (heap w') →
  new_tables wa wb ⊆ new_tables w w'.
Proof.
  intros Ha Hb l Hl. unfold new_tables in *.
  apply elem_of_difference in Hl as [H1 H2]. apply elem_of_difference.
  split; [by apply Hb|]. intros H3. apply H2. by apply Ha.
Qed.

Lemma new_tables_old w w' l : l ∈ new_tables w w' → l ∉ dom (heap w).
Proof.
  unfold new_tables. intros Hl. by apply elem_of_difference in Hl as [_ Hl].
Qed.

Lemma new_tables_new w w' l : l ∈ new_tables w w' → l ∈ dom (heap w').
Proof.
  unfold new_tables. intros Hl. by apply elem_of_difference in Hl as [Hl _].
Qed.

(** A value that can be written out from the tables made in a stretch can
    be written out from those of a longer one that kept them. *)
Lemma encodable_in_weaken wa wb w w' v :
  dom (heap w) ⊆ dom (heap wa) →
  dom (heap wb) ⊆ dom (heap w') →
  (∀ l, l ∈ new_tables wa wb → heap w' !! l = heap wb !! l) →
  encodable_in wa wb v → encodable_in w w' v.
Proof.
  intros Ha Hb Hagree Hv h fuel Hk Hsize.
  pose proof (new_tables_mono wa wb w w' Ha Hb) as Hsub.
  apply Hv.
  - intros l Hl. rewrite <- (Hagree l Hl). apply Hk. by apply Hsub.
  - etrans; [|apply Hsize]. by apply subseteq_size.
Qed.

Lemma encodable_leaf w w' v :
  match v with
  | VNil | VBool _ | VString _ => True
  | VFloat64 f => Float64.is_finite f = true
  | _ => False
  end → encodable_in w w' v.
Proof.
  intros Hv h fuel _ _. unfold encodes.
  destruct v as [|[]|f| | |s| | |]; try done;
    try (destruct fuel; by eexists).
  destruct (encode_float_finite f Hv) as [bs Hbs].
  exists bs. by destruct fuel.
Qed.

Lemma dom_assigned h l (t : gmap string Value) :
  dom h ⊆ dom (<[l := t]> h).
Proof. rewrite dom_insert_L. apply union_subseteq_r. Qed.

(** The loop of [object] keeps every value of the table it fills such
    that it can be written out. *)
Lemma object_encodable l ms :
  Forall (λ kv, decodes_encodable kv.2) ms →
  ∀ saved w0 wx s w2,
    l ∈ dom (heap w0) → dom (heap w0) ⊆ dom (heap wx) →
    (∀ k v, entries (heap wx) (MapRef l) !! k = Some v →
            encodable_in w0 wx v) →
    object (MapRef l) ms saved wx = (Ret s, w2) →
    dom (heap w0) ⊆ dom (heap w2) ∧
    ∀ k v, entries (heap w2) (MapRef l) !! k = Some v →
           encodable_in w0 w2 v.
Proof.
  induction 1 as [|[k e] ms He _ IH]; intros saved w0 wx s w2 Hl Hsub Ht.
  { by intros [= _ <-]. }
  cbn [object]. unfold mbind, M_bind, bind.
  pose proof (grows_unquote_string k wx) as Hq.
  destruct (unquote_string k wx) as [[key|p|n] wq]; simpl in Hq; subst wq;
    [|done..].
  destruct (valueInterface_grows e saved wx) as [Hg _].
  specialize (He saved wx). simpl in He.
  destruct (valueInterface e saved wx) as [[[v s1]|p|n] w1]; [|done..].
  specialize (He v s1 w1 eq_refl). simpl in Hg.
  cbn [assign]. pose proof (grows_subseteq _ _ Hg) as Hsub1.
  assert (l ∈ dom (heap wx)) as Hlx by (by apply Hsub).
  apply IH; [done|simpl; by rewrite Hsub, Hsub1, <- dom_assigned|].
  intros k' v'. simpl. rewrite lookup_insert_eq. simpl.
  rewrite (proj2 Hg l Hlx).
  destruct (decide (key = k')) as [<-|Hne].
  - rewrite lookup_insert_eq. intros [= <-].
    apply (encodable_in_weaken wx w1); [done|apply dom_assigned| |done].
    intros l' Hl'. simpl. rewrite lookup_insert_ne; [done|].
    intros <-. by apply new_tables_old in Hl'.
  - rewrite lookup_insert_ne by done. intros Hk'.
    apply (encodable_in_weaken w0 wx);
      [done|simpl; by rewrite Hsub1, <- dom_assigned|
      |exact (Ht k' v' Hk')].
    intros l' Hl'. simpl. rewrite lookup_insert_ne.
    + apply (proj2 Hg). by eapply new_tables_new.
    + intros <-. by apply new_tables_old in Hl'.
Qed.

(** Decoding an object in a value is the loop of [object] on a new
    table. *)
Lemma valueInterface_object ms saved w :
  valueInterface (JObject ms) saved w
  = (m ← make_map; saved' ← object m ms saved; mret (VMap m, saved')) w.
Proof.
  cbn [valueInterface]. unfold mbind, M_bind, bind.
  destruct (make_map w) as [[m|p|n] w0]; [|done..].
  set (members := fix members (ms : list (list byte * json))
                    (saved : option error) : M (option error) := _).
  assert (∀ saved wx, members ms saved wx = object m ms saved wx) as ->;
    [|done].
  clear. induction ms as [|[k e] ms IH]; intros saved wx; [done|].
  cbn [members object]. unfold mbind, M_bind, bind.
  destruct (unquote_string k wx) as [[key|p|n] wq]; [|done..].
  destruct (valueInterface e saved wq) as [[[v s1]|p|n] w1]; [|done..].
  destruct (assign m key v w1) as [[[]|p|n] w2]; [|done..].
  apply IH.
Qed.

(** The table of an object counts among the tables made for it, beside
    those made for its members. *)
Lemma new_table_size w w0 w2 l :
  l ∉ dom (heap w) → dom (heap w0) = {[l]} ∪ dom (heap w) →
  dom (heap w0) ⊆ dom (heap w2) →
  size (new_tables w w2) = S (size (new_tables w0 w2)).
Proof.
  intros Hl H0 Hsub. unfold new_tables.
  assert (l ∈ dom (heap w0)) as Hl0.
  { rewrite H0. apply elem_of_union. left. by apply elem_of_singleton. }
  assert (dom (heap w2) ∖ dom (heap w)
          = {[l]} ∪ dom (heap w2) ∖ dom (heap w0)) as ->.
  { apply set_eq. intros l'. rewrite elem_of_union, !elem_of_difference.
    rewrite H0, elem_of_union, elem_of_singleton. split.
    - intros [H2 Hn]. destruct (decide (l' = l)) as [->|Hne]; [by left|].
      right. split; [done|]. by intros [?|?].
    - intros [->|[H2 Hn]].
      + split; [by apply Hsub|done].
      + split; [done|]. intros ?. apply Hn. by right. }
  rewrite size_union, size_singleton; [done|].
  intros l' ->%elem_of_singleton [_ Hn]%elem_of_difference. by apply Hn.
Qed.

(** Whatever the decoder makes of a syntax tree can be written out from
    the tables it made for it. *)
Lemma valueInterface_encodable t : decodes_encodable t.
Proof.
  induction t as [| | |lit|raw|es IH|ms IH] using json_nested_ind;
    intros saved w v s w'.
  - intros [= <- _ _]. apply encodable_leaf. exact I.
  - intros [= <- _ _]. apply encodable_leaf. exact I.
  - intros [= <- _ _]. apply encodable_leaf. exact I.
  - cbn [valueInterface]. unfold mret, M_ret, ret.
    unfold convertNumber.
    destruct (Strconv.ParseFloat lit) as [f|] eqn:Hf; intros [= <- _ _];
      apply encodable_leaf; [by eapply ParseFloat_finite|exact I].
  - cbn [valueInterface]. unfold mbind, M_bind, bind, unquote_string.
    destruct (unquote raw); [|done]. intros [= <- _ _].
    apply encodable_leaf. exact I.
  - cbn [valueInterface]. unfold mbind, M_bind, bind.
    set (elements := fix elements (es : list json) (saved : option error)
           : M (list Value * option error) := _).
    assert (∀ saved w vs s w',
               elements es saved w = (Ret (vs, s), w') →
               grows w w' ∧ Forall (encodable_in w w') vs) as H.
    { clear saved w v s w'.
      induction IH as [|e es He _ IHes]; intros saved w vs s w'.
      - intros [= <- _ <-]. split; [apply grows_refl|done].
      - cbn [elements]. destruct (valueInterface_grows e saved w) as [Hg _].
        specialize (He saved w).
        destruct (valueInterface e saved w) as [[[v s1]|p|n] w1];
          [|done..].
        specialize (He v s1 w1 eq_refl). simpl in Hg.
        fold elements. specialize (IHes s1 w1).
        destruct (elements es s1 w1) as [[[vs' s2]|p|n] w2]; [|done..].
        destruct (IHes vs' s2 w2 eq_refl) as [Hg' Hvs].
        intros [= <- _ <-]. split; [by eapply grows_trans|].
        pose proof (grows_subseteq _ _ Hg) as Hsub.
        pose proof (grows_subseteq _ _ Hg') as Hsub'.
        constructor.
        + apply (encodable_in_weaken w w1); [done..| |done].
          intros l Hl. apply (proj2 Hg'). by eapply new_tables_new.
        + eapply Forall_impl; [apply Hvs|]. intros v' Hv'.
          by apply (encodable_in_weaken w1 w2). }
    specialize (H saved w).
    destruct (elements es saved w) as [[[vs s2]|p|n] w2]; [|done..].
    destruct (H vs s2 w2 eq_refl) as [_ Hvs]. intros [= <- _ <-].
    intros h fuel Hk Hsize. unfold encodes. rewrite encode_slice.
    destruct (encode_elements_ok fuel h vs) as [bss ->]; [|by eexists].
    eapply Forall_impl; [apply Hvs|]. intros v' Hv'. by apply Hv'.
  - rewrite valueInterface_object. unfold mbind, M_bind, bind.
    pose proof (is_fresh (dom (heap w))) as Hfresh.
    unfold make_map. cbv zeta.
    set (l := fresh (dom (heap w))) in *. set (w0 := World _ _).
    assert (dom (heap w0) = {[l]} ∪ dom (heap w)) as Hdom0
      by apply dom_insert_L.
    assert (l ∈ dom (heap w0)) as Hl0.
    { rewrite Hdom0. apply elem_of_union. left. by apply elem_of_singleton. }
    pose proof (object_encodable l ms IH saved w0 w0) as H.
    destruct (object (MapRef l) ms saved w0) as [[s2|p|n] w2]; [|done..].
    destruct (H s2 w2 Hl0) as [Hsub Ht]; [done| |done|].
    { intros k v0. simpl. rewrite lookup_insert_eq. simpl.
      by rewrite lookup_empty. }
    intros [= <- _ <-]. intros h fuel Hk Hsize.
    rewrite (new_table_size w w0 w2 l Hfresh Hdom0 Hsub) in Hsize.
    destruct fuel as [|fuel]; [lia|]. unfold encodes. rewrite encode_table.
    assert (l ∈ new_tables w w2) as Hnew.
    { unfold new_tables. apply elem_of_difference.
      split; [by apply Hsub|done]. }
    assert (entries h (MapRef l) = entries (heap w2) (MapRef l)) as ->.
    { simpl. by rewrite (Hk l Hnew). }
    destruct (encode_members_ok fuel h
                (sorted_entries (entries (heap w2) (MapRef l))))
      as [bss ->]; [|by eexists].
    intros k v0 Hin%elem_of_sorted_entries.
    apply (Ht k v0 Hin); [|lia].
    intros l' Hl'. apply Hk.
    apply (new_tables_mono w0 w2 w w2); [|done..].
    rewrite Hdom0. apply union_subseteq_r.
Qed.

(** The store [Loads] returns can be written out with as many tables
    open at once as the heap holds. *)
Lemma Loads_encodable data w c e w' :
  Loads data w = (Ret (c, e), w') →
  encodes (size (heap w')) (heap w') (VMap c).
Proof.
  intros HL.
  assert (c = NilMap ∨ encodable_in w w' (VMap c)) as [->|Hc].
  { revert HL. unfold Loads, Unmarshal.
    destruct (checkValid data) as [t|]; [|intros [= <- _ _]; by left].
    destruct t as [| | |lit|raw|es|ms];
      try (intros [= <- _ _]; by left).
    - unfold mbind, M_bind, bind, unquote_string.
      destruct (unquote raw); [|done]. intros [= <- _ _]. by left.
    - intros HL. right.
      apply (valueInterface_encodable (JObject ms) None w (VMap c) e w').
      rewrite valueInterface_object. revert HL.
      unfold mbind, M_bind, bind.
      destruct (make_map w) as [[m|p|n] w0]; [|done..].
      destruct (object m ms None w0) as [[s|p|n] w2]; [|done..].
      by intros [= -> -> ->]. }
  - exists ["n"; "u"; "l"; "l"]%byte. by destruct (size (heap w')).
  - apply Hc; [done|].
    rewrite <- (size_dom (heap w')). apply subseteq_size.
    intros l Hl. by eapply new_tables_new.
Qed.

(** A store that [Loads] returned with a nil error can be dumped:
    [Dumps] on it returns bytes and a nil error, and changes nothing.
    Every number the decoder stored is finite, and a path through its
    tables meets none of them twice, so the encoder finds neither a value
    it cannot represent nor a cycle. *)
Theorem Dumps_after_Loads data w c w' :
  Loads data w = (Ret (c, None), w') →
  ∃ bs, Dumps c w' = (Ret (bs, None), w').
Proof.
  intros HL. unfold Dumps, Marshal.
  destruct (Loads_encodable _ _ _ _ _ HL) as [bs ->]. by exists bs.
Qed.

Lemma Dumps_after_Loads_witness :
  ∃ bs, Dumps (MapRef 1) (loaded "{'a':{'b':[1,'x',null]}}").2
        = (Ret (bs, None), (loaded "{'a':{'b':[1,'x',null]}}").2).
Proof.
  apply (Dumps_after_Loads (text "{'a':{'b':[1,'x',null]}}") init
           (MapRef 1)).
  vm_compute. reflexivity.
Defined.

End DumpsAfterLoads.

(** ** The keys and the typed accessors of a loaded store *)

Section LoadedStore.
Import Json.

Implicit Types (w : world) (c : Config) (key : string) (v : Value).

Lemma object_keys l ms :
  ∀ saved wx s w2,
    l ∈ dom (heap wx) →
    object (MapRef l) ms saved wx = (Ret s, w2) →
    ∀ key, is_Some (entries (heap w2) (MapRef l) !! key)
           ↔ is_Some (entries (heap wx) (MapRef l) !! key)
             ∨ key ∈ member_names ms.
Proof.
  induction ms as [|[k e] ms IH]; intros saved wx s w2 Hl.
  { intros [= _ <-] key. split; [by left|]. intros [?|H]; [done|].
    by apply elem_of_nil in H. }
  cbn [object]. unfold mbind, M_bind, bind, unquote_string, member_names.
  cbn [omap list_omap fst]. fold (member_names ms).
  destruct (unquote k) as [bs|]; [|done]. cbn [fmap option_fmap option_map].
  unfold mret at 1, M_ret at 1, ret at 1.
  destruct (valueInterface_grows e saved wx) as [Hg _].
  destruct (valueInterface e saved wx) as [[[v s1]|p|n] w1]; [|done..].
  simpl in Hg. cbn [assign]. intros HO key.
  eapply IH in HO; [rewrite HO; clear HO IH|].
  - simpl. rewrite lookup_insert_eq. simpl. rewrite (proj2 Hg l Hl).
    rewrite lookup_insert_is_Some, elem_of_cons.
    destruct (decide (string_of_list_byte bs = key)) as [->|Hne].
    + split; intros _; [right|left]; by left.
    + split; [intros [[?|[_ ?]]|?]|intros [?|[?|?]]]; auto; congruence.
  - simpl. apply elem_of_dom. rewrite lookup_insert_eq. by eexists.
Qed.

(** The keys of the store [Loads] returns for an object are the member
    names of the text, unquoted: [Get] finds a key exactly when it is one
    of them, and answers [ErrNoSuchKey] for every other. *)
Theorem Loads_keys_are_member_names data w l e w' :
  Loads data w = (Ret (MapRef l, e), w') →
  ∃ ms, checkValid data = Some (JObject ms) ∧
        ∀ key,
          (key ∈ member_names ms →
           ∃ v, Get (MapRef l) key w' = (Ret (v, None), w')) ∧
          (key ∉ member_names ms →
           Get (MapRef l) key w' = (Ret (VNil, Some ErrNoSuchKey), w')).
Proof.
  intros HL.
  destruct (Loads_allocated_is_object _ _ _ _ _ HL) as [ms Hms].
  exists ms. split; [done|]. revert HL. unfold Loads, Unmarshal.
  rewrite Hms. unfold mbind, M_bind, bind, make_map. cbv zeta.
  set (l0 := fresh (dom (heap w))). set (w0 := World _ _).
  assert (l0 ∈ dom (heap w0)) as Hl0.
  { simpl. apply elem_of_dom. rewrite lookup_insert_eq. by eexists. }
  pose proof (object_keys l0 ms None w0) as H.
  destruct (object (MapRef l0) ms None w0) as [[s|p|n] w2]; [|done..].
  specialize (H s w2 Hl0 eq_refl). intros [= <- _ <-]. intros key.
  assert (entries (heap w0) (MapRef l0) !! key = None) as Hempty.
  { simpl. rewrite lookup_insert_eq. simpl. apply lookup_empty. }
  split.
  - intros Hin. destruct (proj2 (H key)) as [v Hv]; [by right|].
    exists v. by apply Get_present.
  - intros Hout. apply Get_absent. apply eq_None_not_Some.
    intros [Hs|Hin]%H; [|done]. rewrite Hempty in Hs. by destruct Hs.
Qed.

Lemma Loads_keys_are_member_names_witness :
  ∃ ms, checkValid (text "{'a':1,'bA':2,'a':3}") = Some (JObject ms) ∧
        ∀ key,
          (key ∈ member_names ms →
           ∃ v, Get (MapRef 1) key (loaded "{'a':1,'bA':2,'a':3}").2
                = (Ret (v, None), (loaded "{'a':1,'bA':2,'a':3}").2)) ∧
          (key ∉ member_names ms →
           Get (MapRef 1) key (loaded "{'a':1,'bA':2,'a':3}").2
           = (Ret (VNil, Some ErrNoSuchKey),
              (loaded "{'a':1,'bA':2,'a':3}").2)).
Proof.
  apply (Loads_keys_are_member_names (text "{'a':1,'bA':2,'a':3}")
           init 1%positive None).
  vm_compute. reflexivity.
Defined.

(** On a store returned by [Loads] the required accessors of a string
    and of the integers end as the optional ones do on every present key:
    with the same result, or with the same panic.  The branches for a
    stored [int64] or [uint64] are never taken there. *)
Theorem typed_accessors_agree_on_loaded_store data w c e w' key :
  Loads data w = (Ret (c, e), w') →
  is_Some (entries (heap w') c !! key) →
  (∀ s, GetString c key w' = (Ret (s, None), w')
        ↔ GetRequiredString c key w' = (Ret s, w')) ∧
  (∀ n, GetInt64 c key w' = (Ret (n, None), w')
        ↔ GetRequiredInt64 c key w' = (Ret n, w')) ∧
  (∀ n, GetUint64 c key w' = (Ret (n, None), w')
        ↔ GetRequiredUint64 c key w' = (Ret n, w')) ∧
  (∀ p, GetString c key w' = (Panic p, w')
        ↔ GetRequiredString c key w' = (Panic p, w')) ∧
  (∀ p, GetInt64 c key w' = (Panic p, w')
        ↔ GetRequiredInt64 c key w' = (Panic p, w')) ∧
  (∀ p, GetUint64 c key w' = (Panic p, w')
        ↔ GetRequiredUint64 c key w' = (Panic p, w')).
Proof.
  intros HL [v Hk].
  pose proof (Loads_shapes_table _ _ _ _ _ HL key v Hk) as Hs.
  unfold GetRequiredString, GetRequiredInt64, GetRequiredUint64.
  rewrite !(after_GetRequired _ _ _ _ _ Hk).
  step. rewrite Hk.
  repeat split_and; intros x; destruct v; try done; simpl;
    split; intros [= ->]; done.
Qed.

Lemma typed_accessors_agree_on_loaded_store_witness :
  GetInt64 (MapRef 1) "n" (loaded "{'n':7}").2
  = (Ret (7, None), (loaded "{'n':7}").2)
  ↔ GetRequiredInt64 (MapRef 1) "n" (loaded "{'n':7}").2
    = (Ret 7, (loaded "{'n':7}").2).
Proof.
  assert (HL : Loads (text "{'n':7}") init
               = (Ret (MapRef 1, None), (loaded "{'n':7}").2))
    by (vm_compute; reflexivity).
  assert (Hk : is_Some (entries (heap (loaded "{'n':7}").2) (MapRef 1)
                          !! "n")) by (vm_compute; by eexists).
  exact (proj1 (proj2 (typed_accessors_agree_on_loaded_store
                         _ _ _ _ _ _ HL Hk)) 7).
Defined.

End LoadedStore.

(** ** Integer literals *)

Section IntegerLiterals.
Import Utf8 Strconv Json.

Implicit Types (w : world) (c : Config) (key : string) (v : Value).

Lemma code_digit r : 0 ≤ r < 10 → code (chr (48 + r)) = 48 + r.
Proof.
  intros Hr.
  assert (r = 0 ∨ r = 1 ∨ r = 2 ∨ r = 3 ∨ r = 4 ∨ r = 5 ∨ r = 6 ∨ r = 7
          ∨ r = 8 ∨ r = 9) as H by lia.
  repeat (destruct H as [->|H]; [reflexivity|]). by subst.
Qed.

Lemma digits_value_snoc ds d :
  digits_value (ds ++ [d]) = 10 * digits_value ds + (code d - 48).
Proof. unfold digits_value. by rewrite fold_left_app. Qed.

Lemma digits_loop_acc fuel :
  ∀ n acc, digits_loop fuel n acc = digits_loop fuel n [] ++ acc.
Proof.
  induction fuel as [|fuel IH]; intros n acc; [done|]. simpl.
  destruct (n <? 10); [done|].
  rewrite (IH _ (_ :: acc)), (IH _ [_]). by rewrite <- app_assoc.
Qed.

Lemma digits_loop_spec fuel :
  ∀ n, 0 ≤ n < 10 ^ Z.of_nat fuel →
       digits_value (digits_loop fuel n []) = n ∧
       Forall (λ b, is_digit b = true) (digits_loop fuel n []).
Proof.
  induction fuel as [|fuel IH]; intros n Hn.
  { simpl in *. split; [unfold digits_value; simpl; lia|done]. }
  assert (0 ≤ n mod 10 < 10) as Hr by (apply Z.mod_pos_bound; lia).
  assert (is_digit (chr (48 + n mod 10)) = true) as Hd.
  { unfold is_digit. rewrite code_digit by done. lia. }
  simpl. destruct (Z.ltb_spec n 10) as [Hlt|Hge].
  - split; [|by repeat constructor].
    unfold digits_value. simpl. rewrite code_digit by done.
    rewrite Z.mod_small; lia.
  - rewrite digits_loop_acc.
    destruct (IH (n / 10)) as [Hv Hall].
    { split; [apply Z.div_pos; lia|].
      apply Z.div_lt_upper_bound; [lia|].
      rewrite Nat2Z.inj_succ, Z.pow_succ_r in Hn; lia. }
    split.
    + rewrite digits_value_snoc, Hv, code_digit by done.
      pose proof (Z.div_mod n 10). lia.
    + apply Forall_app. split; [done|by repeat constructor].
Qed.

Lemma digits_of_spec n :
  0 ≤ n →
  digits_value (digits_of n) = n ∧
  Forall (λ b, is_digit b = true) (digits_of n).
Proof.
  intros Hn. apply digits_loop_spec. split; [done|].
  rewrite Nat2Z.inj_succ, Z2Nat.id by apply Z.log2_nonneg.
  destruct (decide (n = 0)) as [->|Hne]; [done|].
  pose proof (Z.log2_spec n). 
  assert (2 ^ Z.succ (Z.log2 n) ≤ 10 ^ Z.succ (Z.log2 n)).
  { apply Z.pow_le_mono_l. lia. }
  lia.
Qed.

Lemma span_digits_all ds :
  Forall (λ b, is_digit b = true) ds → span_digits ds = (ds, []).
Proof.
  induction 1 as [|b ds Hb _ IH]; [done|]. simpl. by rewrite Hb, IH.
Qed.

Lemma digit_not_minus b : is_digit b = true → Byte.eqb b "-" = false.
Proof.
  intros Hb. destruct (Byte.eqb b "-") eqn:He; [|done].
  apply Byte.byte_dec_bl in He. by subst.
Qed.

(** The canonical decimal of an integer reads as that integer, scaled by
    no power of ten. *)
Lemma readFloat_format_int n :
  readFloat (format_int n) = (n <? 0, Z.abs n, 0).
Proof.
  unfold format_int.
  destruct (digits_of_spec (Z.abs n)) as [Hv Hall]; [lia|].
  assert (∀ neg ds, Forall (λ b, is_digit b = true) ds →
             readFloat (sign_bytes neg ++ ds) = (neg, digits_value ds, 0))
    as H; [|by rewrite H, Hv].
  clear. intros neg ds Hall. unfold readFloat.
  assert ((match sign_bytes neg ++ ds with
           | b :: r => if Byte.eqb b "-" then (true, r)
                       else (false, sign_bytes neg ++ ds)
           | [] => (false, sign_bytes neg ++ ds)
           end) = (neg, ds)) as ->.
  { destruct neg; [done|]. simpl. destruct Hall as [|b ds Hb _]; [done|].
    by rewrite (digit_not_minus b Hb). }
  rewrite (span_digits_all ds Hall). simpl. by rewrite app_nil_r.
Qed.

(** Below [2 ^ 53] the nearest [float64] to an integer is the integer. *)
Lemma of_decimal_integer neg n :
  0 < n < 2 ^ 53 →
  ∃ p e, of_decimal neg n 0 = S754_finite neg p e ∧
         Float64.trunc (S754_finite neg p e) = cond_Zopp neg n.
Proof.
  intros Hn. unfold of_decimal.
  destruct (Z.eqb_spec n 0) as [|_]; [lia|].
  change (pow10 0) with 1. change (pow10 (- 0)) with 1.
  rewrite Z.mul_1_r. unfold round_ratio, magnitude.
  change (Z.log2 1) with 0. rewrite Z.sub_0_r.
  pose proof (Z.log2_spec n (proj1 Hn)) as [Hlo Hhi].
  pose proof (Z.log2_nonneg n) as Hl0.
  assert (Z.log2 n < 53) as Hl53 by (apply Z.log2_lt_pow2; lia).
  assert (pow2 (- Z.log2 n) = 1) as ->.
  { unfold pow2. by rewrite Z.max_l by lia. }
  assert (pow2 (Z.log2 n) = 2 ^ Z.log2 n) as ->.
  { unfold pow2. by rewrite Z.max_r by lia. }
  destruct (Z.leb_spec (1 * 2 ^ Z.log2 n) (n * 1)) as [_|]; [|lia].
  change Float64.prec with 53. change Float64.emax with 1024.
  rewrite Z.max_l by lia.
  set (e := Z.log2 n + 1 - 53).
  assert (pow2 e = 1) as ->.
  { unfold pow2. by rewrite Z.max_l by lia. }
  assert (pow2 (- e) = 2 ^ (- e)) as ->.
  { unfold pow2. by rewrite Z.max_r by lia. }
  assert (0 < 2 ^ (- e)) as Hpos by (apply Z.pow_pos_nonneg; lia).
  assert (n * 2 ^ (- e) < 2 ^ 53) as Hm.
  { replace (2 ^ 53) with (2 ^ Z.succ (Z.log2 n) * 2 ^ (- e)).
    - apply Z.mul_lt_mono_pos_r; lia.
    - rewrite <- Z.pow_add_r by lia. f_equal. unfold e. lia. }
  assert (round_even (n * 2 ^ (- e)) (1 * 1) = n * 2 ^ (- e)) as ->.
  { unfold round_even. change (1 * 1) with 1.
    rewrite Z.mod_1_r, Z.div_1_r. done. }
  destruct (Z.eqb_spec (n * 2 ^ (- e)) (2 ^ 53)) as [|_]; [lia|].
  destruct (n * 2 ^ (- e)) as [|p|p] eqn:Hp; [lia| |lia].
  destruct (Z.leb_spec e (1024 - 53)) as [_|]; [|lia].
  exists p, e. split; [done|].
  rewrite trunc_toward_zero. destruct (Z.leb_spec 0 e) as [He|He].
  - assert (e = 0) as -> by lia. rewrite Z.pow_0_r, Z.mul_1_r.
    f_equal. simpl in Hp. lia.
  - rewrite <- Hp. destruct neg; simpl.
    + rewrite <- Z.mul_opp_l. by rewrite Z.quot_mul by lia.
    + by rewrite Z.quot_mul by lia.
Qed.

End IntegerLiterals.

(** ** The members of the text through the accessors *)

Section Members.
Import Utf8 Strconv Json.

Implicit Types (w : world) (c : Config) (key : string) (v : Value).

Lemma valueInterface_scalar t v0 saved w v s w' :
  scalar_value t = Some v0 →
  valueInterface t saved w = (Ret (v, s), w') → v = v0.
Proof.
  destruct t as [| | |lit|raw|es|ms]; simpl; try done;
    try (by intros [= <-] [= <- _ _]).
  - unfold mret, M_ret, ret, convertNumber.
    destruct (ParseFloat lit); [|done]. by intros [= <-] [= <- _ _].
  - unfold mbind, M_bind, bind, unquote_string.
    destruct (unquote raw); [|done]. by intros [= <-] [= <- _ _].
Qed.

(** After the loop of [object], a key names the value of the last member
    of that name, or what it named before when there is none. *)
Lemma object_last_member l key ms :
  ∀ saved wx s w2,
    l ∈ dom (heap wx) →
    object (MapRef l) ms saved wx = (Ret s, w2) →
    match last_member key ms with
    | None =>
        entries (heap w2) (MapRef l) !! key
        = entries (heap wx) (MapRef l) !! key
    | Some t =>
        ∀ v, scalar_value t = Some v →
             entries (heap w2) (MapRef l) !! key = Some v
    end.
Proof.
  induction ms as [|[k t] ms IH]; intros saved wx s w2 Hl.
  { by intros [= _ <-]. }
  cbn [object last_member]. unfold mbind, M_bind, bind, unquote_string.
  destruct (unquote k) as [bs|]; [|done].
  cbn [fmap option_fmap option_map].
  unfold mret at 1, M_ret at 1, ret at 1.
  destruct (valueInterface_grows t saved wx) as [Hg _].
  destruct (valueInterface t saved wx) as [[[v s1]|p|n] w1] eqn:Hv;
    [|done..].
  simpl in Hg. cbn [assign]. intros HO.
  eapply IH in HO;
    [|simpl; apply elem_of_dom; rewrite lookup_insert_eq; by eexists].
  destruct (last_member key ms) as [t'|]; [done|].
  rewrite HO. clear HO IH. simpl. rewrite lookup_insert_eq. simpl.
  rewrite (proj2 Hg l Hl).
  destruct (decide (Some (string_of_list_byte bs) = Some key))
    as [[= ->]|Hne].
  - intros v0 Hv0. rewrite lookup_insert_eq. f_equal.
    by eapply valueInterface_scalar.
  - rewrite lookup_insert_ne; [done|]. intros Heq. apply Hne.
    by rewrite Heq.
Qed.

Lemma Loads_last_member data w c e w' ms key t v :
  Loads data w = (Ret (c, e), w') →
  checkValid data = Some (JObject ms) →
  last_member key ms = Some t → scalar_value t = Some v →
  entries (heap w') c !! key = Some v.
Proof.
  intros HL Hms Hlast Hv. revert HL. unfold Loads, Unmarshal. rewrite Hms.
  unfold mbind, M_bind, bind, make_map. cbv zeta.
  set (l := fresh (dom (heap w))). set (w0 := World _ _).
  assert (l ∈ dom (heap w0)) as Hl0.
  { simpl. apply elem_of_dom. rewrite lookup_insert_eq. by eexists. }
  pose proof (object_last_member l key ms None w0) as H.
  destruct (object (MapRef l) ms None w0) as [[s|p|m] w2]; [|done..].
  specialize (H s w2 Hl0 eq_refl). rewrite Hlast in H.
  intros [= <- _ <-]. by apply H.
Qed.

(** When the text names a key more than once the last member wins: for a
    member that is null, a boolean, a number or a string, [Get] on the
    loaded store returns what the decoder makes of the last member of
    that name, and [GetString] returns a string unquoted. *)
Theorem Get_after_Loads_is_last_member data w c e w' ms key t v :
  Loads data w = (Ret (c, e), w') →
  checkValid data = Some (JObject ms) →
  last_member key ms = Some t → scalar_value t = Some v →
  Get c key w' = (Ret (v, None), w') ∧
  ∀ s, v = VString s → GetString c key w' = (Ret (s, None), w').
Proof.
  intros HL Hms Hlast Hv.
  pose proof (Loads_last_member _ _ _ _ _ _ _ _ _ HL Hms Hlast Hv) as Hk.
  split; [by apply Get_present|]. intros s ->. step. by rewrite Hk.
Qed.

Lemma Get_after_Loads_is_last_member_witness :
  Get (MapRef 1) "host" (loaded "{'host':'a','host':'\u0041b'}").2
  = (Ret (VString "Ab", None), (loaded "{'host':'a','host':'\u0041b'}").2).
Proof.
  assert (Hms : ∃ ms t,
             checkValid (text "{'host':'a','host':'\u0041b'}")
             = Some (JObject ms) ∧
             last_member "host" ms = Some t ∧
             scalar_value t = Some (VString "Ab")).
  { eexists _, _. split; [vm_compute; reflexivity|].
    split; [vm_compute; reflexivity|]. vm_compute. reflexivity. }
  destruct Hms as (ms & t & Hms & Hlast & Ht).
  assert (HL : Loads (text "{'host':'a','host':'\u0041b'}") init
               = (Ret (MapRef 1, None),
                  (loaded "{'host':'a','host':'\u0041b'}").2))
    by (vm_compute; reflexivity).
  exact (proj1 (Get_after_Loads_is_last_member _ _ _ _ _ _ _ _ _
                  HL Hms Hlast Ht)).
Defined.

(** An integer below [2 ^ 53] in magnitude, written in decimal, parses to
    a [float64] whose integer part it is. *)
Lemma ParseFloat_format_int n :
  - 2 ^ 53 < n < 2 ^ 53 →
  ∃ f, ParseFloat (format_int n) = Some f ∧
       Float64.is_finite f = true ∧ Float64.trunc f = n.
Proof.
  intros Hn. unfold ParseFloat. rewrite readFloat_format_int.
  destruct (decide (n = 0)) as [->|Hne]; [by eexists|].
  destruct (of_decimal_integer (n <? 0) (Z.abs n)) as (p & e & -> & Ht);
    [lia|].
  eexists. split; [done|]. split; [done|]. rewrite Ht.
  destruct (Z.ltb_spec n 0); simpl; lia.
Qed.

(** An integer below [2 ^ 53] in magnitude that the text gives in decimal
    as the (last) value of a member is what the integer accessors return
    for that name; the unsigned ones when it is not negative. *)
Theorem integer_member_is_read_back data w c e w' ms key n :
  Loads data w = (Ret (c, e), w') →
  checkValid data = Some (JObject ms) →
  last_member key ms = Some (JNumber (format_int n)) →
  - 2 ^ 53 < n < 2 ^ 53 →
  GetInt64 c key w' = (Ret (n, None), w') ∧
  GetRequiredInt64 c key w' = (Ret n, w') ∧
  (0 ≤ n →
   GetUint64 c key w' = (Ret (n, None), w') ∧
   GetRequiredUint64 c key w' = (Ret n, w')).
Proof.
  intros HL Hms Hlast Hn.
  destruct (ParseFloat_format_int n Hn) as (f & Hf & Hfin & Ht).
  assert (entries (heap w') c !! key = Some (VFloat64 f)) as Hk.
  { apply (Loads_last_member _ _ _ _ _ _ _ _ _ HL Hms Hlast).
    simpl. by rewrite Hf. }
  assert (Float64.to_int64 f = n) as Hi.
  { unfold Float64.to_int64. rewrite Hfin, Ht.
    destruct (Z.leb_spec (- 2 ^ 63) n); [|lia].
    destruct (Z.ltb_spec n (2 ^ 63)); [done|lia]. }
  unfold GetRequiredInt64, GetRequiredUint64.
  rewrite !(after_GetRequired _ _ _ _ _ Hk).
  split; [step; by rewrite Hk; simpl; rewrite Hi|].
  split; [step; simpl; by rewrite Hi|].
  intros H0.
  assert (Float64.to_uint64 f = n) as Hu.
  { unfold Float64.to_uint64. rewrite Hfin, Ht.
    destruct (Z.leb_spec 0 n); [|lia].
    destruct (Z.ltb_spec n (2 ^ 64)); [done|lia]. }
  split; [step; by rewrite Hk; simpl; rewrite Hu|].
  step. simpl. by rewrite Hu.
Qed.

Lemma integer_member_is_read_back_witness :
  GetInt64 (MapRef 1) "port" (loaded "{'port':1,'port':8080,'x':[]}").2
  = (Ret (8080, None), (loaded "{'port':1,'port':8080,'x':[]}").2).
Proof.
  assert (Hms : ∃ ms,
             checkValid (text "{'port':1,'port':8080,'x':[]}")
             = Some (JObject ms) ∧
             last_member "port" ms = Some (JNumber (format_int 8080))).
  { eexists. split; [vm_compute; reflexivity|]. vm_compute. reflexivity. }
  destruct Hms as (ms & Hms & Hlast).
  assert (HL : Loads (text "{'port':1,'port':8080,'x':[]}") init
               = (Ret (MapRef 1, None),
                  (loaded "{'port':1,'port':8080,'x':[]}").2))
    by (vm_compute; reflexivity).
  assert (Hn : - 2 ^ 53 < 8080 < 2 ^ 53) by lia.
  exact (proj1 (integer_member_is_read_back _ _ _ _ _ _ _ _
                  HL Hms Hlast Hn)).
Defined.

End Members.
